(** * Delayed-conversion load generator: the scheduling engine

    A shallow embedding of [examples/dtc/loadgen/main.py] together with the
    part of Python's [heapq]/[queue.PriorityQueue] that the program runs on,
    and the properties of the time-ordered queue, of the scheduler loop
    ([convert]) and of the lead pipeline ([create_lead], [run_simulation]).

    Conventions of the embedding.
    - Python [float] values (timestamps, scores, durations) are rationals
      [Q].  The product and the sum that make a fire time (line 217) are
      rounded to double precision ([round64]: to nearest, ties to even).
      Comparisons are exact, and so is the difference of line 113, which
      floating point computes without error when the fire time and the clock
      reading are within a factor of two of each other.  Overflow,
      infinities and NaN are outside the model.
    - Python [int] values are [Z]; [%] with a positive divisor is [Z.modulo].
    - A Python list used as an array is a [list] with stdpp's lookup and
      insert; an index out of range raises, which is [None] here.
    - The outside world (database rows, the random generator, the wall
      clock, the other thread's queue operations) is a record of streams
      read through counters kept in the state.
    - The calls to the database, the broker, the clock and the queue are
      recorded in a trace, in the order the thread makes them; failures of
      the database and broker drivers themselves are not modelled. *)

From Stdlib Require Import QArith Qround Qpower ZifyNat Lia Lqa Ascii.
From Equations Require Import Equations.
From stdpp Require Import base list sorting strings gmap.

#[local] Open Scope nat_scope.

(** [lia] is used on heap indices, which involve division by two. *)
#[local] Ltac Zify.zify_post_hook ::= Z.to_euclidean_division_equations.

(** ** Python's [heapq] on a list

    The functions of [Lib/heapq.py] that [queue.PriorityQueue] calls, with
    their own names; an [IndexError] is [None]. *)

Module heapq.
Section heapq.
Context {A : Type}.
(** [ltb x y] is Python's [x < y] on the items, that is [x.__lt__(y)]. *)
Variable ltb : A → A → bool.

(** [heap[i] = x] : IndexError when [i] is out of range. *)
Definition setitem (heap : list A) (i : nat) (x : A) : option (list A) :=
  if decide (i < length heap) then Some (<[i:=x]> heap) else None.

(** The [while pos > startpos] loop of [_siftdown]; [(pos - 1) / 2] is
    [(pos - 1) >> 1].  The result is the list after the final
    [heap[pos] = newitem]. *)
Equations? _siftdown_loop (heap : list A) (newitem : A) (startpos pos : nat)
  : option (list A) by wf pos lt :=
  _siftdown_loop heap newitem startpos pos with decide (startpos < pos) := {
    | right _ := setitem heap pos newitem
    | left _ with heap !! ((pos - 1) / 2) := {
        | None := None
        | Some parent with ltb newitem parent := {
            | false := setitem heap pos newitem
            | true with setitem heap pos parent := {
                | None := None
                | Some heap' :=
                    _siftdown_loop heap' newitem startpos ((pos - 1) / 2) } } } }.
Proof. change ((pos - 1) / 2 < pos). lia. Qed.

Definition _siftdown (heap : list A) (startpos pos : nat) : option (list A) :=
  newitem ← heap !! pos;
  _siftdown_loop heap newitem startpos pos.

(** The choice of the smaller child in [_siftup]:
    [if rightpos < endpos and not heap[childpos] < heap[rightpos]:
       childpos = rightpos]. *)
Definition smaller_child (heap : list A) (endpos childpos : nat) : option nat :=
  let rightpos := childpos + 1 in
  if decide (rightpos < endpos) then
    l ← heap !! childpos;
    r ← heap !! rightpos;
    Some (if ltb l r then childpos else rightpos)
  else Some childpos.

(** The [while childpos < endpos] loop of [_siftup]: the smaller child is
    moved up until a leaf is reached; the result is the list and the
    position of that leaf. *)
Equations? _siftup_loop (heap : list A) (endpos pos : nat)
  : option (list A * nat) by wf (endpos - pos) lt :=
  _siftup_loop heap endpos pos with decide (2 * pos + 1 < endpos) := {
    | right _ := Some (heap, pos)
    | left _ with Logic.inspect (smaller_child heap endpos (2 * pos + 1)) := {
        | exist _ None _ := None
        | exist _ (Some childpos) Hc with heap !! childpos := {
            | None := None
            | Some c with setitem heap pos c := {
                | None := None
                | Some heap' := _siftup_loop heap' endpos childpos } } } }.
Proof.
  unfold smaller_child in Hc.
  destruct (decide (2 * pos + 1 + 1 < endpos)); simplify_option_eq; [|lia].
  destruct (ltb _ _); lia.
Qed.

Definition _siftup (heap : list A) (pos : nat) : option (list A) :=
  let endpos := length heap in
  let startpos := pos in
  newitem ← heap !! pos;
  '(heap1, pos1) ← _siftup_loop heap endpos pos;
  heap2 ← setitem heap1 pos1 newitem;
  _siftdown heap2 startpos pos1.

(** [heappush(heap, item)]: [heap.append(item)] then
    [_siftdown(heap, 0, len(heap) - 1)]. *)
Definition heappush (heap : list A) (item : A) : option (list A) :=
  let heap1 := heap ++ [item] in
  _siftdown heap1 0 (length heap1 - 1).

(** [heap.pop()]: the last element and the list without it; IndexError on
    the empty list. *)
Definition list_pop (heap : list A) : option (A * list A) :=
  lastelt ← last heap;
  Some (lastelt, removelast heap).

(** [heappop(heap)]. *)
Definition heappop (heap : list A) : option (A * list A) :=
  '(lastelt, heap1) ← list_pop heap;
  match heap1 with
  | [] => Some (lastelt, heap1)
  | _ :: _ =>
      returnitem ← heap1 !! 0;
      heap2 ← setitem heap1 0 lastelt;
      heap3 ← _siftup heap2 0;
      Some (returnitem, heap3)
  end.

(** The order in which the items leave a heap:
    [[heappop(heap) for _ in range(n)]], cut short when the heap is empty. *)
Fixpoint drain (n : nat) (heap : list A) : list A :=
  match n with
  | 0 => []
  | S n =>
      match heappop heap with
      | Some (item, heap') => item :: drain n heap'
      | None => []
      end
  end.

(** *** The heap invariant and the invariants of the sifting loops *)

(** [heap[k] <= heap[2*k+1]] and [heap[k] <= heap[2*k+2]] for all [k],
    stated from the child: no item is less than its parent. *)
Definition heap_ok (h : list A) : Prop :=
  ∀ i x p, 0 < i → h !! i = Some x → h !! ((i - 1) / 2) = Some p →
           ltb x p = false.

(** The invariant of both sifting loops: the heap property holds on every
    edge whose child is not [pos], and the children of [pos] are not less
    than the parent of [pos]. *)
Definition hole_ok (h : list A) (pos : nat) : Prop :=
  (∀ i x p, 0 < i → i ≠ pos → h !! i = Some x →
            h !! ((i - 1) / 2) = Some p → ltb x p = false) ∧
  (∀ c x g, 0 < pos → 0 < c → (c - 1) / 2 = pos → h !! c = Some x →
            h !! ((pos - 1) / 2) = Some g → ltb x g = false).

(** The invariant of the first loop of [_siftup], where the item at [pos]
    is about to be overwritten: the edges above and below [pos] are left
    out. *)
Definition sift_ok (h : list A) (pos : nat) : Prop :=
  (∀ i x p, 0 < i → i ≠ pos → (i - 1) / 2 ≠ pos → h !! i = Some x →
            h !! ((i - 1) / 2) = Some p → ltb x p = false) ∧
  (∀ c x g, 0 < pos → 0 < c → (c - 1) / 2 = pos → h !! c = Some x →
            h !! ((pos - 1) / 2) = Some g → ltb x g = false).

End heapq.
End heapq.


(** ** Data model ([main.py], lines 27-43) *)

Module Lead.
Record t := mk {
  email : string;
  utm_medium : string;
  utm_source : string;
  id : option Z;  (* [Optional[int] = None] *)
}.
End Lead.
Abbreviation Lead := Lead.t.

(** Python's [x < y] on two floats. *)
Definition Qltb (x y : Q) : bool := (Qnum x * QDen y <? Qnum y * QDen x)%Z.

Module ConversionEvent.
Record t := mk {
  converted_at : Q;
  lead : Lead;
  conversion_amount : Z;
}.
(** "This method is required to use this class in a PriorityQueue". *)
Definition __lt__ (self other : t) : bool :=
  Qltb (converted_at self) (converted_at other).
End ConversionEvent.
Abbreviation ConversionEvent := ConversionEvent.t.

(** ** [queue.PriorityQueue], unbounded: [self.queue] is a list kept as a
    heap by [heappush] ([_put]) and [heappop] ([_get]). *)
Module PriorityQueue.
Definition _put (queue : list ConversionEvent) (item : ConversionEvent)
  : option (list ConversionEvent) :=
  heapq.heappush ConversionEvent.__lt__ queue item.
Definition _get (queue : list ConversionEvent)
  : option (ConversionEvent * list ConversionEvent) :=
  heapq.heappop ConversionEvent.__lt__ queue.
(** The order in which [get] hands out the items of a queue that receives
    no further [put]. *)
Definition drain (queue : list ConversionEvent) : list ConversionEvent :=
  heapq.drain ConversionEvent.__lt__ (length queue) queue.
End PriorityQueue.

(** An operation of a thread on the shared queue.  The queue's mutex makes
    each one atomic. *)
Inductive QueueOp :=
  | Put (item : ConversionEvent)
  | Get.

(** The effect of one operation on the queue; [get] on an empty queue waits
    and leaves the queue as it is. *)
Definition apply_op (queue : list ConversionEvent) (op : QueueOp)
  : list ConversionEvent :=
  match op with
  | Put item => default queue (PriorityQueue._put queue item)
  | Get =>
      match queue with
      | [] => queue
      | _ :: _ => from_option snd queue (PriorityQueue._get queue)
      end
  end.

Definition apply_ops (queue : list ConversionEvent) (ops : list QueueOp)
  : list ConversionEvent :=
  foldl apply_op queue ops.

(** ** The collaborators and the state of a thread *)

(** The record that [log_prediction] sends (lines 139-145). *)
Module Prediction.
Record t := mk {
  lead_id : option Z;
  experiment_bucket : string;
  score : Q;
  label : Z;
  predicted_at : Q;
}.
End Prediction.

(** The calls a thread makes to the outside, in the order it makes them. *)
Inductive Effect :=
  (** [INSERT INTO leads (email, utm_medium, utm_source) ... RETURNING id] *)
  | SqlInsertLead (email utm_medium utm_source : string)
  (** [INSERT INTO coupons (lead_id, amount) VALUES (...)] *)
  | SqlInsertCoupon (lead_id : option Z) (amount : Z)
  (** [UPDATE leads SET converted_at = NOW(), conversion_amount = ...
      WHERE id = ...] *)
  | SqlUpdateConversion (conversion_amount : Z) (lead_id : option Z)
  (** [producer.send(topic=..., value=...)] *)
  | KafkaSend (topic : string) (record : Prediction.t)
  (** [queue.get()] returned [item] / [queue.put(item)] *)
  | QueueGet (item : ConversionEvent)
  | QueuePut (item : ConversionEvent)
  (** [time.time()] returned [now] *)
  | TimeTime (now : Q)
  (** [time.sleep(seconds)] *)
  | TimeSleep (seconds : Q).

Inductive Exn :=
  | RuntimeError (failed : Lead)  (* "Failed to create lead {lead}" *)
  | IndexError
  | KeyError
  | ValueError.

(** What the outside answers: the row of the k-th [fetchone] (its [id]
    column, or no row), the k-th value of the random generator, the k-th
    reading of the wall clock, and what the other thread does to the queue
    before this thread's k-th queue operation. *)
Record World := {
  db_fetchone : nat → option Z;
  random_bits : nat → N;
  wall_clock : nat → Q;
  other_thread : nat → list QueueOp;
}.

Record State := {
  queue : list ConversionEvent;
  trace : list Effect;
  n_fetchone : nat;
  n_random : nat;
  n_clock : nat;
  n_queue : nat;
}.

(** How a call ends: it returns, raises, or waits for ever in
    [queue.get()]. *)
Inductive Outcome (A : Type) :=
  | Returned (a : A)
  | Raised (e : Exn)
  | Blocked.
Arguments Returned {A} a.
Arguments Raised {A} e.
Arguments Blocked {A}.

Definition M (A : Type) : Type := World → State → Outcome A * State.

#[global] Instance M_ret : MRet M := λ A a w s, (Returned a, s).
#[global] Instance M_bind : MBind M := λ A B f m w s,
  match m w s with
  | (Returned a, s') => f a w s'
  | (Raised e, s') => (Raised e, s')
  | (Blocked, s') => (Blocked, s')
  end.

Definition raise {A} (e : Exn) : M A := λ w s, (Raised e, s).

(** The state after one more call has been recorded, and after one more
    answer of each kind has been consumed. *)
Definition add_trace (ev : Effect) (s : State) : State :=
  {| queue := queue s; trace := trace s ++ [ev];
     n_fetchone := n_fetchone s; n_random := n_random s;
     n_clock := n_clock s; n_queue := n_queue s |}.
Definition tick_fetchone (s : State) : State :=
  {| queue := queue s; trace := trace s;
     n_fetchone := S (n_fetchone s); n_random := n_random s;
     n_clock := n_clock s; n_queue := n_queue s |}.
Definition tick_random (s : State) : State :=
  {| queue := queue s; trace := trace s;
     n_fetchone := n_fetchone s; n_random := S (n_random s);
     n_clock := n_clock s; n_queue := n_queue s |}.
Definition tick_clock (s : State) : State :=
  {| queue := queue s; trace := trace s;
     n_fetchone := n_fetchone s; n_random := n_random s;
     n_clock := S (n_clock s); n_queue := n_queue s |}.
(** The queue after this thread's operation left it as [queue']. *)
Definition tick_queue (queue' : list ConversionEvent) (s : State) : State :=
  {| queue := queue'; trace := trace s;
     n_fetchone := n_fetchone s; n_random := n_random s;
     n_clock := n_clock s; n_queue := S (n_queue s) |}.

Definition log (ev : Effect) : M unit := λ w s, (Returned tt, add_trace ev s).

(** *** The [random] module *)

(** The next raw value of the generator. *)
Definition next_bits : M N := λ w s,
  (Returned (random_bits w (n_random s)), tick_random s).

(** [random.random()]: a 53-bit integer over [2**53], in [[0, 1)]. *)
Definition random_value (bits : N) : Q :=
  Qmake (Z.of_N bits mod 2 ^ 53) (2 ^ 53).
Definition random_random : M Q :=
  bits ← next_bits;
  mret (random_value bits).

(** [random._randbelow(n)] for [n > 0]: an integer in [[0, n)]. *)
Definition randbelow_value (n : Z) (bits : N) : Z := (Z.of_N bits mod n)%Z.
Definition _randbelow (n : Z) : M Z :=
  bits ← next_bits;
  mret (randbelow_value n bits).

(** [random.randint(a, b)]: [a + _randbelow(b - a + 1)], ValueError on an
    empty range. *)
Definition random_randint (a b : Z) : M Z :=
  if (b - a + 1 <=? 0)%Z then raise ValueError
  else r ← _randbelow (b - a + 1); mret (a + r)%Z.

(** [random.choice(seq)]: [seq[_randbelow(len(seq))]], IndexError on an
    empty sequence. *)
Definition random_choice {X} (seq : list X) : M X :=
  match seq with
  | [] => raise IndexError
  | _ :: _ =>
      i ← _randbelow (Z.of_nat (length seq));
      match seq !! Z.to_nat i with
      | Some x => mret x
      | None => raise IndexError
      end
  end.

(** *** The [time] module *)

Definition time_time : M Q := λ w s,
  let now := wall_clock w (n_clock s) in
  (Returned now, add_trace (TimeTime now) (tick_clock s)).

(** [dt.datetime.now(tz=dt.timezone.utc)]: the same clock, as seconds. *)
Definition datetime_now : M Q := λ w s,
  (Returned (wall_clock w (n_clock s)), tick_clock s).

Definition time_sleep (seconds : Q) : M unit := log (TimeSleep seconds).

(** *** The shared queue *)

(** The queue as this thread finds it at its next operation: the other
    thread's operations since the last one have been applied. *)
Definition queue_now (w : World) (s : State) : list ConversionEvent :=
  apply_ops (queue s) (other_thread w (n_queue s)).

(** [queue.put(item)]: never waits, the queue is unbounded. *)
Definition queue_put (item : ConversionEvent) : M unit := λ w s,
  match PriorityQueue._put (queue_now w s) item with
  | Some queue' => (Returned tt, add_trace (QueuePut item) (tick_queue queue' s))
  | None => (Raised IndexError, s)
  end.

(** [queue.get()]: waits while the queue is empty. *)
Definition queue_get : M ConversionEvent := λ w s,
  match queue_now w s with
  | [] => (Blocked, s)
  | _ :: _ =>
      match PriorityQueue._get (queue_now w s) with
      | Some (item, queue') =>
          (Returned item, add_trace (QueueGet item) (tick_queue queue' s))
      | None => (Raised IndexError, s)
      end
  end.

(** *** The database cursor *)

Definition cur_execute (statement : Effect) : M unit := log statement.

(** [cur.fetchone()] after [INSERT ... RETURNING id]: the row, or [None]. *)
Definition cur_fetchone : M (option Z) := λ w s,
  (Returned (db_fetchone w (n_fetchone s)), tick_fetchone s).

(** ** Double precision

    The arithmetic of Python's [float] on finite values: the exact result,
    rounded to the nearest double, to the one with the even mantissa when
    two are nearest. *)

Definition pow2 (e : Z) : Q := (2 ^ e)%Q.

(** The exponent [e] with [2^e <= x < 2^(e+1)], for [x > 0]. *)
Definition binade (x : Q) : Z :=
  let k := (Z.log2 (Qnum x) - Z.log2 (Z.pos (Qden x)))%Z in
  if Qle_bool (pow2 k) x then k else (k - 1)%Z.

(** The nearest integer; of two nearest, the even one. *)
Definition rne (q : Q) : Z :=
  let f := Qfloor q in
  match (q - inject_Z f ?= 1 # 2)%Q with
  | Lt => f
  | Eq => if Z.even f then f else (f + 1)%Z
  | Gt => (f + 1)%Z
  end.

(** The distance between the doubles around [x > 0]: 53 bits of mantissa in
    the binade of [x], and [2^-1074] below [2^-1022]. *)
Definition ulp (x : Q) : Q := pow2 (Z.max (binade x) (-1022) - 52).

Definition round_pos (x : Q) : Q := (inject_Z (rne (x / ulp x)) * ulp x)%Q.

Definition round64 (x : Q) : Q :=
  match Qnum x with
  | Z0 => 0%Q
  | Zpos _ => round_pos x
  | Zneg _ => (- round_pos (- x))%Q
  end.

(** [x + y] and [x * y] on two floats. *)
Definition float_add (x y : Q) : Q := round64 (x + y).
Definition float_mul (x y : Q) : Q := round64 (x * y).

(** ** The program *)

(** [string.ascii_letters] *)
Definition ascii_letters : string :=
  "abcdefghijklmnopqrstuvwxyzABCDEFGHIJKLMNOPQRSTUVWXYZ".

(** [[random.choice(string.ascii_letters) for _ in range(n)]], joined. *)
Fixpoint random_letters (n : nat) : M string :=
  match n with
  | 0 => mret ""
  | S n =>
      c ← random_choice (String.list_ascii_of_string ascii_letters);
      rest ← random_letters n;
      mret (String c rest)
  end.

Definition medium_to_sources : gmap string (list string) :=
  list_to_map
    [ ("email", ["klaviyo.com"]);
      ("social", ["facebook.com"; "twitter.com"; "instagram.com"]);
      ("organic", ["none"; "google.com"]);
      ("referral", ["hackernews.com"; "reddit.com"]) ].

(** [rand_lead] (lines 46-68). *)
Definition rand_lead : M Lead :=
  n ← random_randint 4 20;
  name ← random_letters (Z.to_nat n);
  m ← random_randint 3 5;
  domain ← random_letters (Z.to_nat m);
  let email := name +:+ "@" +:+ domain +:+ ".com" in
  utm_medium ← random_choice ["email"; "social"; "organic"; "referral"];
  sources ← match medium_to_sources !! utm_medium with
            | Some sources => mret sources
            | None => raise KeyError
            end;
  utm_source ← random_choice sources;
  mret (Lead.mk email utm_medium utm_source None).

(** [log_conversion] (lines 71-85). *)
Definition log_conversion (lead : Lead) (conversion_amount : Z) : M unit :=
  cur_execute (SqlUpdateConversion conversion_amount (Lead.id lead)).

(** [log_coupon] (lines 88-99). *)
Definition log_coupon (lead : Lead) (amount : Z) : M unit :=
  cur_execute (SqlInsertCoupon (Lead.id lead) amount).

(** [log_prediction] (lines 129-148). *)
Definition log_prediction (lead : Lead) (score : Q) (label : Z)
    (experiment_bucket : string) : M unit :=
  predicted_at ← datetime_now;
  let record :=
    Prediction.mk (Lead.id lead) experiment_bucket score label predicted_at in
  log (KafkaSend "conversion_predictions" record).

(** The polling period of [convert] (line 110). *)
Definition PERIOD : Q := 0.05%Q.

(** One turn of the [while True] loop of [convert] (lines 112-126).  The
    message of [logger.debug] is built before the call, which reads the
    clock a second time. *)
Definition convert_iteration : M unit :=
  conversion_event ← queue_get;
  now ← time_time;
  let time_to_wait := (ConversionEvent.converted_at conversion_event - now)%Q in
  if Qltb PERIOD time_to_wait then
    (* Put item back onto the queue *)
    queue_put conversion_event;;
    time_sleep PERIOD
  else
    _ ← time_time;
    log_conversion (ConversionEvent.lead conversion_event)
                   (ConversionEvent.conversion_amount conversion_event).

(** [convert] (lines 102-126), for [n] turns of its loop. *)
Fixpoint convert (n : nat) : M unit :=
  match n with
  | 0 => mret tt
  | S n => convert_iteration;; convert n
  end.

(** [experiment_bucket] (line 191), as a function of [lead.id]. *)
Definition experiment_bucket (lead_id : Z) : string :=
  if (lead_id mod 10 <=? 1)%Z then "control" else "experiment".

(** The first part of [create_lead], inside [with conn.cursor() as cur]
    (lines 165-202): the lead with its identifier, the score and
    [sent_coupon]. *)
Definition create_lead_predict : M (Lead * Q * bool) :=
  lead ← rand_lead;
  cur_execute (SqlInsertLead (Lead.email lead) (Lead.utm_medium lead)
                             (Lead.utm_source lead));;
  res ← cur_fetchone;
  match res with
  | None => raise (RuntimeError lead)
  | Some res0 =>
      (* lead.id = res[0] *)
      let lead := Lead.mk (Lead.email lead) (Lead.utm_medium lead)
                          (Lead.utm_source lead) (Some res0) in
      (* Make a "prediction" *)
      score ← random_random;
      let threshold : Q := 0.5%Q in
      let label : Z := (if Qltb threshold score then 1 else 0)%Z in
      let experiment_bucket := experiment_bucket res0 in
      log_prediction lead score label experiment_bucket;;
      if bool_decide (label = 0%Z) && bool_decide (experiment_bucket ≠ "control")
      then
        coupon_amount ← random_randint 500 5000;
        log_coupon lead coupon_amount;;
        mret (lead, score, true)
      else mret (lead, score, false)
  end.

(** The second part of [create_lead], after the [with] block
    (lines 204-223). *)
Definition create_lead_convert (lead : Lead) (score : Q) (sent_coupon : bool)
  : M unit :=
  r ← random_random;
  let did_convert := Qltb r score in
  did_convert ← (if sent_coupon && negb did_convert
                 then r' ← random_random; mret (Qltb r' score)
                 else mret did_convert);
  if did_convert : bool then
    now ← time_time;
    r'' ← random_random;
    let converted_at := float_add now (float_mul r'' 30) in
    conversion_amount ← random_randint 1000 25000;
    queue_put (ConversionEvent.mk converted_at lead conversion_amount)
  else mret tt.

(** [create_lead] (lines 151-223). *)
Definition create_lead : M unit :=
  '(lead, score, sent_coupon) ← create_lead_predict;
  create_lead_convert lead score sent_coupon.

(** [run_simulation] (lines 226-252), for [n] turns of its loop.  The
    consumer thread it starts is the other thread of the [World]. *)
Fixpoint run_simulation (n : nat) : M unit :=
  match n with
  | 0 => mret tt
  | S n => create_lead;; time_sleep 0.01%Q;; run_simulation n
  end.

(** The state in which both threads start: [PriorityQueue()]. *)
Definition initial_state : State :=
  {| queue := []; trace := []; n_fetchone := 0; n_random := 0;
     n_clock := 0; n_queue := 0 |}.

(** ** Vocabulary of the properties *)

(** The list of a queue is a heap for [ConversionEvent.__lt__]. *)
Definition is_heap (queue : list ConversionEvent) : Prop :=
  heapq.heap_ok ConversionEvent.__lt__ queue.

(** The state after [k] more values of the generator have been used. *)
Definition skip_random (k : nat) (s : State) : State :=
  {| queue := queue s; trace := trace s;
     n_fetchone := n_fetchone s; n_random := k + n_random s;
     n_clock := n_clock s; n_queue := n_queue s |}.

(** A turn of the loop that puts the event back: the readiness check found
    it more than [PERIOD] ahead. *)
Definition requeue_turn (turn : list Effect) : Prop :=
  ∃ e now,
    turn = [QueueGet e; TimeTime now; QueuePut e; TimeSleep PERIOD] ∧
    (PERIOD < ConversionEvent.converted_at e - now)%Q.

(** A turn of the loop that finalizes the event: at the readiness check it
    was at most [PERIOD] ahead. *)
Definition finalize_turn (turn : list Effect) : Prop :=
  ∃ e now now',
    turn = [QueueGet e; TimeTime now; TimeTime now';
            SqlUpdateConversion (ConversionEvent.conversion_amount e)
                                (Lead.id (ConversionEvent.lead e))] ∧
    (ConversionEvent.converted_at e <= now + PERIOD)%Q.

(** [x] fires strictly before [e]. *)
Definition earlier_than (e x : ConversionEvent) : Prop :=
  (ConversionEvent.converted_at x < ConversionEvent.converted_at e)%Q.

#[global] Instance earlier_than_dec e x : Decision (earlier_than e x).
Proof.
  unfold earlier_than.
  destruct (Qlt_le_dec (ConversionEvent.converted_at x)
                       (ConversionEvent.converted_at e));
    [by left|right; by apply Qle_not_lt].
Defined.

(** [a] fires no later than [b]. *)
Definition fires_first (a b : ConversionEvent) : Prop :=
  (ConversionEvent.converted_at a <= ConversionEvent.converted_at b)%Q.

(** [a] and [b] fire at the same time. *)
Definition same_time (a b : ConversionEvent) : Prop :=
  (ConversionEvent.converted_at a == ConversionEvent.converted_at b)%Q.

(** How many of the raw values [0 .. m - 1] of the generator satisfy [p]. *)
Definition count_raw (p : N → bool) (m : nat) : nat :=
  length (filter (λ b, p (N.of_nat b) = true) (seq 0 m)).

(** [x] stands before [y] in the list [l]. *)
Definition occurs_before (l : list ConversionEvent) (x y : ConversionEvent)
  : Prop :=
  ∃ l1 l2 l3, l = l1 ++ x :: l2 ++ y :: l3.

(** A character of [string.ascii_letters]. *)
Definition letter (c : Ascii.ascii) : Prop :=
  c ∈ String.list_ascii_of_string ascii_letters.

(** A character that a generated lead can contain: a letter, [@] or [.]. *)
Definition plain (c : Ascii.ascii) : Prop :=
  letter c ∨ c = "@"%char ∨ c = "."%char.

(** The calls of [create_lead] for a lead whose INSERT returned the
    identifier [i], in the order they are made. *)
Definition lead_calls (i : Z) (calls : list Effect) : Prop :=
  ∃ lead record coupon enqueue,
    calls = SqlInsertLead (Lead.email lead) (Lead.utm_medium lead)
                          (Lead.utm_source lead)
            :: KafkaSend "conversion_predictions" record
            :: coupon ++ enqueue ∧
    Lead.id lead = Some i ∧
    Prediction.lead_id record = Some i ∧
    Prediction.experiment_bucket record = experiment_bucket i ∧
    (0 <= Prediction.score record < 1)%Q ∧
    Prediction.label record
    = (if Qltb 0.5 (Prediction.score record) then 1 else 0)%Z ∧
    (if bool_decide (Prediction.label record = 0%Z ∧
                     experiment_bucket i = "experiment")
     then ∃ amount, (500 ≤ amount ≤ 5000)%Z ∧
                    coupon = [SqlInsertCoupon (Some i) amount]
     else coupon = []) ∧
    (enqueue = [] ∨
     ∃ now event,
       enqueue = [TimeTime now; QueuePut event] ∧
       ConversionEvent.lead event = lead ∧
       (round64 now <= ConversionEvent.converted_at event
        <= round64 (now + 30))%Q ∧
       (1000 ≤ ConversionEvent.conversion_amount event ≤ 25000)%Z).

(** The calls of the [j]-th turn of the producer loop, counted from the
    turn that reads the row number [first]: the calls of [create_lead] for
    that row, then the pause of 10 ms. *)
Definition producer_turn (w : World) (first j : nat) (turn : list Effect)
  : Prop :=
  ∃ i calls,
    db_fetchone w (first + j) = Some i ∧
    lead_calls i calls ∧
    turn = calls ++ [TimeSleep 0.01%Q].

(** What a call of the producer thread may be. *)
Definition producer_call_ok (ev : Effect) : Prop :=
  match ev with
  | SqlInsertLead _ _ _ => True
  | KafkaSend topic record =>
      topic = "conversion_predictions" ∧
      (0 <= Prediction.score record < 1)%Q ∧
      (Prediction.label record = 0 ∨ Prediction.label record = 1)%Z ∧
      ∃ i, Prediction.lead_id record = Some i ∧
           Prediction.experiment_bucket record = experiment_bucket i
  | SqlInsertCoupon lead_id amount =>
      (500 ≤ amount ≤ 5000)%Z ∧
      ∃ i, lead_id = Some i ∧ (2 ≤ i mod 10)%Z
  | QueuePut event =>
      (1000 ≤ ConversionEvent.conversion_amount event ≤ 25000)%Z ∧
      is_Some (Lead.id (ConversionEvent.lead event))
  | TimeTime _ => True
  | TimeSleep seconds => seconds = 0.01%Q
  | SqlUpdateConversion _ _ | QueueGet _ => False
  end.

(** The events that the calls of a trace take from the queue, the events
    they put on it, and the UPDATEs among them (amount and lead
    identifier), each in the order of the calls. *)
Definition taken (tr : list Effect) : list ConversionEvent :=
  omap (λ ev, match ev with QueueGet e => Some e | _ => None end) tr.
Definition enqueued (tr : list Effect) : list ConversionEvent :=
  omap (λ ev, match ev with QueuePut e => Some e | _ => None end) tr.
Definition updates (tr : list Effect) : list (Z * option Z) :=
  omap (λ ev, match ev with
              | SqlUpdateConversion amount lead_id => Some (amount, lead_id)
              | _ => None
              end) tr.

(** The identifier of the lead of an event. *)
Definition lead_id_of (e : ConversionEvent) : option Z :=
  Lead.id (ConversionEvent.lead e).

(** The lead of the event has an identifier. *)
Definition has_id (e : ConversionEvent) : Prop := is_Some (lead_id_of e).

(** The UPDATE that finalizes an event: its amount and the identifier of
    its lead. *)
Definition conversion_of (e : ConversionEvent) : Z * option Z :=
  (ConversionEvent.conversion_amount e, lead_id_of e).

(** The events that a list of operations puts on the queue. *)
Definition puts_of (ops : list QueueOp) : list ConversionEvent :=
  omap (λ op, match op with Put e => Some e | Get => None end) ops.

(** The events that the other thread puts on the queue before this
    thread's queue operations number [a] to [b - 1]. *)
Definition arrivals (w : World) (a b : nat) : list ConversionEvent :=
  puts_of (concat (other_thread w <$> seq a (b - a))).

(** ** Sample worlds *)

(** A world given by the lists of its first answers; later answers are no
    row, 0, time 0 and a silent other thread. *)
Definition scripted_world (rows : list (option Z)) (bits : list N)
    (clock : list Q) (others : list (list QueueOp)) : World :=
  {| db_fetchone k := default None (rows !! k);
     random_bits k := default 0%N (bits !! k);
     wall_clock k := default 0%Q (clock !! k);
     other_thread k := default [] (others !! k) |}.

Definition sample_lead (i : Z) : Lead :=
  Lead.mk "aaaa@aaa.com" "email" "klaviyo.com" (Some i).

Definition sample_event (converted_at : Q) (i : Z) : ConversionEvent :=
  ConversionEvent.mk converted_at (sample_lead i) (1000 + i).

(** The database has no row for the first INSERT, and rows 7 and 8 for the
    next two. *)
Definition world_missing_row : World :=
  scripted_world [None; Some 7%Z; Some 8%Z] [] [] [].

(** The first lead gets identifier 12; the generator gives the score 0.5,
    the coupon amount 1500, a first flip at 0.75, a second flip at 0, the
    delay factor 0.5 and the conversion amount 1005; the clock reads 50 s
    and then 60 s. *)
Definition world_coupon : World :=
  scripted_world [Some 12%Z]
    (replicate 11 0%N ++ [2 ^ 52; 1000; 3 * 2 ^ 51; 0; 2 ^ 52; 5]%N)
    [50%Q; 60%Q] [].

(** One event, due at 99 s, is waiting; the clock reads 100 s. *)
Definition state_due : State :=
  {| queue := [sample_event 99 1]; trace := [];
     n_fetchone := 0; n_random := 0; n_clock := 0; n_queue := 0 |}.

(** The consumer starts on an empty queue; the producer inserts an event
    due at 100 s before the consumer's [get], which reads the clock at 10 s;
    while the consumer holds the event the producer inserts three events
    due at 20 s, 30 s and 20 s. *)
Definition world_requeue : World :=
  scripted_world [] [] [10%Q]
    [ [Put (sample_event 100 0)];
      [Put (sample_event 20 1); Put (sample_event 30 2);
       Put (sample_event 20 3)] ].

Definition state_after_get : State :=
  {| queue := []; trace := [QueueGet (sample_event 100 0)];
     n_fetchone := 0; n_random := 0; n_clock := 0; n_queue := 1 |}.

(** The first lead gets identifier 12 and the score 0, hence a coupon of
    500 cents, and does not convert; there is no row for the second lead. *)
Definition world_second_row_missing : World :=
  scripted_world [Some 12%Z; None; Some 13%Z] [] [] [].

(** A world in which the other thread does nothing and the clock stands
    at [now]. *)
Definition world_quiet (now : Q) : World :=
  {| db_fetchone _ := None; random_bits _ := 0%N; wall_clock _ := now;
     other_thread _ := [] |}.

(** Three events, due at 99 s, 97 s and 98 s, inserted in that order. *)
Definition state_backlog : State :=
  {| queue := apply_ops [] [Put (sample_event 99 1); Put (sample_event 97 2);
                            Put (sample_event 98 3)];
     trace := []; n_fetchone := 0; n_random := 0; n_clock := 0;
     n_queue := 0 |}.

(** The event with which the lead of [world_coupon] is scheduled. *)
Definition event_coupon : ConversionEvent :=
  ConversionEvent.mk (float_add 60 (float_mul (random_value (2 ^ 52)) 30))
                     (sample_lead 12) 1005.

(** The consumer next to the producer of [world_coupon]: that event
    arrives before the first [get]; the clock reads 80 s. *)
Definition world_consumer : World :=
  scripted_world [] [] [80%Q; 80%Q] [[Put event_coupon]].

(** Two events that are due at once (the clock reads 0 s) arrive before
    the first [get]. *)
Definition world_two_due : World :=
  scripted_world [] [] [] [[Put (sample_event 0 1); Put (sample_event 0 2)]].

(** The consumer takes an event due at 5 s while the clock reads 0 s;
    while it holds the event, the producer inserts events due at 1 s, 2 s
    and 2 s. *)
Definition world_ties : World :=
  scripted_world [] [] []
    [ [Put (sample_event 5 0)];
      [Put (sample_event 1 1); Put (sample_event 2 2);
       Put (sample_event 2 3)] ].

(** The clock reads 1 700 000 000 s; the generator gives 0 for the first
    flip, the largest value of [random.random()], [1 - 2^-53], for the
    delay, and the conversion amount 1000. *)
Definition world_last_value : World :=
  scripted_world [] [0; 2 ^ 53 - 1; 0]%N [1700000000%Q] [].

(** ** The heap invariant *)

Module heap_theory.
Import heapq.
Section heap_theory.
Context {A : Type} (ltb : A → A → bool).

(** The comparison is a strict weak order: asymmetric and negatively
    transitive (so that "not less than" is a total preorder). *)
Hypothesis ltb_asym : ∀ x y, ltb x y = true → ltb y x = false.
Hypothesis ltb_negtrans :
  ∀ x y z, ltb x y = false → ltb y z = false → ltb x z = false.

(** The loops, unfolded once. *)
Lemma _siftdown_loop_unfold (heap : list A) newitem startpos pos :
  _siftdown_loop ltb heap newitem startpos pos =
  if decide (startpos < pos) then
    match heap !! ((pos - 1) / 2) with
    | None => None
    | Some parent =>
        if ltb newitem parent then
          heap' ← setitem heap pos parent;
          _siftdown_loop ltb heap' newitem startpos ((pos - 1) / 2)
        else setitem heap pos newitem
    end
  else setitem heap pos newitem.
Proof.
  rewrite _siftdown_loop_equation_1.
  destruct (decide (startpos < pos)); simpl; [|done].
  destruct (heap !! _); simpl; [|done].
  destruct (ltb _ _); simpl; [|done].
  destruct (setitem _ _ _); done.
Qed.

Lemma _siftup_loop_unfold (heap : list A) endpos pos :
  _siftup_loop ltb heap endpos pos =
  if decide (2 * pos + 1 < endpos) then
    childpos ← smaller_child ltb heap endpos (2 * pos + 1);
    c ← heap !! childpos;
    heap' ← setitem heap pos c;
    _siftup_loop ltb heap' endpos childpos
  else Some (heap, pos).
Proof.
  funelim (_siftup_loop ltb heap endpos pos); clear Heqcall;
    destruct (decide (2 * pos + 1 < endpos)); try lia; try done.
  all: match goal with e : smaller_child _ _ _ _ = _ |- _ => rewrite e end; simpl.
  all: try match goal with e : _ !! _ = _ |- _ => rewrite e end; simpl.
  all: try match goal with e : setitem _ _ _ = _ |- _ => rewrite e end; done.
Qed.

Ltac lookup_cases :=
  repeat match goal with
    | H : <[_:=_]> _ !! _ = Some _ |- _ =>
        apply list_lookup_insert_Some in H as [(? & ? & ?)|(? & ?)]
    end; simplify_eq; try lia.

Ltac solve_lookup :=
  solve [ eassumption
        | match goal with
          | H : ?l !! ?a = Some _ |- ?l !! ?b = Some _ =>
              replace b with a by lia; exact H
          end
        | rewrite list_lookup_insert_ne by lia; solve_lookup
        | rewrite list_lookup_insert_eq by (rewrite ?length_insert; lia);
          reflexivity ].

Ltac lookup_absurd :=
  exfalso;
  repeat match goal with
    | H : _ !! _ = Some _ |- _ => apply lookup_lt_Some in H
    end; lia.

(** *** The operations never raise on a position in range, and only
    rearrange the list. *)

Lemma _siftdown_loop_total pos : ∀ (h : list A) newitem startpos,
  pos < length h →
  ∃ r, _siftdown_loop ltb h newitem startpos pos = Some r ∧
       r ≡ₚ <[pos:=newitem]> h.
Proof.
  induction pos as [pos IH] using lt_wf_ind. intros h newitem startpos Hlen.
  rewrite _siftdown_loop_unfold. unfold setitem.
  destruct (decide (pos < length h)); [|lia].
  destruct (decide (startpos < pos)) as [Hpos|Hpos]; [|by eexists].
  destruct (lookup_lt_is_Some_2 h ((pos - 1) / 2)) as [parent Hp]; [lia|].
  rewrite Hp. destruct (ltb newitem parent); [|by eexists].
  cbn -[Nat.div]. assert (Hpp : (pos - 1) / 2 < pos) by lia.
  destruct (IH _ Hpp (<[pos:=parent]> h) newitem startpos)
    as (r & -> & Hperm); [rewrite length_insert; lia|].
  eexists; split; [done|]. rewrite Hperm.
  rewrite <- (list_insert_insert_eq h pos parent newitem).
  apply Permutation_insert_swap; solve_lookup.
Qed.

Lemma heappush_total (h : list A) item :
  ∃ r, heappush ltb h item = Some r ∧ r ≡ₚ item :: h.
Proof.
  unfold heappush, _siftdown.
  rewrite length_app, Nat.add_sub. simpl.
  rewrite lookup_app_r, Nat.sub_diag by lia. simpl.
  destruct (_siftdown_loop_total (length h) (h ++ [item]) item 0)
    as (r & -> & Hpr); [rewrite length_app; simpl; lia|].
  exists r. split; [done|].
  rewrite Hpr, list_insert_id
    by (rewrite lookup_app_r, Nat.sub_diag by lia; done).
  by rewrite Permutation_app_comm.
Qed.

Lemma smaller_child_total (h : list A) childpos :
  childpos < length h →
  ∃ c, smaller_child ltb h (length h) childpos = Some c ∧
       (c = childpos ∨ c = childpos + 1) ∧ c < length h.
Proof.
  intros Hlt. unfold smaller_child.
  destruct (decide (childpos + 1 < length h)) as [Hr|Hr].
  - destruct (lookup_lt_is_Some_2 h childpos) as [l Hl]; [lia|].
    destruct (lookup_lt_is_Some_2 h (childpos + 1)) as [r Hr']; [lia|].
    rewrite Hl, Hr'. simpl. destruct (ltb l r); eexists; (split; [done|lia]).
  - eexists; split; [done|lia].
Qed.

Lemma _siftup_loop_total n : ∀ pos (h : list A) newitem,
  length h - pos ≤ n → pos < length h →
  ∃ h1 pos1, _siftup_loop ltb h (length h) pos = Some (h1, pos1) ∧
    length h1 = length h ∧ pos1 < length h ∧
    <[pos1:=newitem]> h1 ≡ₚ <[pos:=newitem]> h.
Proof.
  induction n as [|n IH]; intros pos h newitem Hn Hpos; [lia|].
  rewrite _siftup_loop_unfold.
  destruct (decide (2 * pos + 1 < length h)) as [Hc|Hc]; [|by exists h, pos].
  destruct (smaller_child_total h (2 * pos + 1) Hc) as (c & -> & Hcc & Hclt).
  destruct (lookup_lt_is_Some_2 h c Hclt) as [xc Hxc].
  cbn -[Nat.div Nat.mul]. rewrite Hxc. cbn -[Nat.div Nat.mul].
  unfold setitem. destruct (decide (pos < length h)); [|lia].
  cbn -[Nat.div Nat.mul].
  destruct (IH c (<[pos:=xc]> h) newitem)
    as (h1 & pos1 & Hrun & Hlen & Hp1 & Hperm);
    [rewrite length_insert; lia..|].
  rewrite length_insert in Hrun, Hlen, Hp1.
  exists h1, pos1. split; [done|]. split; [done|]. split; [done|].
  rewrite Hperm. rewrite <- (list_insert_insert_eq h pos xc newitem).
  apply Permutation_insert_swap; solve_lookup.
Qed.

Lemma _siftup_total (h : list A) :
  0 < length h → ∃ r, _siftup ltb h 0 = Some r ∧ r ≡ₚ h.
Proof.
  intros Hlen. unfold _siftup.
  destruct (lookup_lt_is_Some_2 h 0 Hlen) as [newitem Hn]. rewrite Hn. simpl.
  destruct (_siftup_loop_total (length h) 0 h newitem)
    as (h1 & pos1 & -> & Hlen1 & Hp1 & Hperm); [lia|done|].
  simpl. unfold setitem. destruct (decide (pos1 < length h1)); [|lia]. simpl.
  unfold _siftdown. rewrite list_lookup_insert_eq by lia. simpl.
  destruct (_siftdown_loop_total pos1 (<[pos1:=newitem]> h1) newitem 0)
    as (r & -> & Hpr); [rewrite length_insert; lia|].
  exists r. split; [done|].
  rewrite Hpr, list_insert_insert_eq, Hperm. by rewrite list_insert_id.
Qed.

Lemma heappop_total (h : list A) :
  h ≠ [] → ∃ x h', heappop ltb h = Some (x, h') ∧ h !! 0 = Some x ∧
                   h ≡ₚ x :: h'.
Proof.
  intros Hne. destruct (exists_last Hne) as (heap1 & lastelt & ->).
  unfold heappop, list_pop. rewrite last_snoc. simpl.
  rewrite removelast_last. destruct heap1 as [|x t].
  - by exists lastelt, [].
  - simpl. destruct (_siftup_total (lastelt :: t)) as (r & Hr & Hperm).
    { simpl. lia. }
    change (setitem (x :: t) 0 lastelt) with (Some (lastelt :: t)).
    simpl. rewrite Hr. simpl.
    exists x, r. split; [done|]. split; [done|].
    rewrite Hperm. rewrite <- Permutation_cons_append. done.
Qed.

(** *** The operations keep the heap invariant. *)

Lemma ltb_irrefl x : ltb x x = false.
Proof. destruct (ltb x x) eqn:E; [by rewrite (ltb_asym _ _ E) in E|done]. Qed.

Lemma _siftdown_loop_ok pos : ∀ (h : list A) newitem,
  pos < length h →
  hole_ok ltb (<[pos:=newitem]> h) pos →
  ∃ r, _siftdown_loop ltb h newitem 0 pos = Some r ∧ heap_ok ltb r ∧
       r ≡ₚ <[pos:=newitem]> h.
Proof.
  induction pos as [pos IH] using lt_wf_ind. intros h newitem Hlen [HE HG].
  rewrite _siftdown_loop_unfold. unfold setitem.
  destruct (decide (pos < length h)); [|lia].
  destruct (decide (0 < pos)) as [Hpos|Hpos]; cbn -[Nat.div].
  - destruct (lookup_lt_is_Some_2 h ((pos - 1) / 2)) as [parent Hp]; [lia|].
    rewrite Hp. destruct (ltb newitem parent) eqn:Hlt; cbn -[Nat.div].
    + assert (Hpp : (pos - 1) / 2 < pos) by lia.
      destruct (IH _ Hpp (<[pos:=parent]> h) newitem)
        as (r & -> & Hok & Hperm).
      { rewrite length_insert. lia. }
      { split.
        - intros i x p ? ? Hi Hpi. lookup_cases.
          + by apply ltb_asym.
          + eapply ltb_negtrans; [|by apply ltb_asym].
            eapply (HE i); [lia|done|solve_lookup|solve_lookup].
          + eapply (HG i); [lia|lia|lia|solve_lookup|solve_lookup].
          + eapply (HE i); [lia|done|solve_lookup|solve_lookup].
        - intros c x g ? ? Hc Hx Hg. lookup_cases.
          + eapply (HE ((c - 1) / 2)); [lia|lia|solve_lookup|solve_lookup].
          + eapply ltb_negtrans.
            * eapply (HE c); [lia|lia|solve_lookup|solve_lookup].
            * eapply (HE ((c - 1) / 2)); [lia|lia|solve_lookup|solve_lookup]. }
      eexists; split; [done|]. split; [done|]. rewrite Hperm.
      rewrite <- (list_insert_insert_eq h pos parent newitem).
      apply Permutation_insert_swap; solve_lookup.
    + eexists; split; [done|]. split; [|done].
      intros i x p ? Hi Hpi. destruct (decide (i = pos)) as [->|].
      * lookup_cases. done.
      * by eapply (HE i).
  - eexists; split; [done|]. split; [|done].
    intros i x p ? Hi Hpi. eapply (HE i); try done. lia.
Qed.

Lemma _siftdown_loop_frame pos : ∀ (h r : list A) newitem startpos,
  _siftdown_loop ltb h newitem startpos pos = Some r →
  ∀ i y, i ≠ pos → h !! i = Some y → ltb newitem y = false → r !! i = Some y.
Proof.
  induction pos as [pos IH] using lt_wf_ind. intros h r newitem startpos.
  rewrite _siftdown_loop_unfold. unfold setitem. intros Hr i y Hi Hy Hlt.
  destruct (decide (startpos < pos)).
  - destruct (h !! ((pos - 1) / 2)) as [parent|] eqn:Hp; [|done].
    destruct (ltb newitem parent) eqn:Hnp.
    + destruct (decide (pos < length h)); [|done]. cbn -[Nat.div] in Hr.
      eapply (IH ((pos - 1) / 2)); [lia|exact Hr| | |done].
      * intros ->. congruence.
      * by rewrite list_lookup_insert_ne.
    + destruct (decide (pos < length h)); simplify_eq.
      by rewrite list_lookup_insert_ne.
  - destruct (decide (pos < length h)); simplify_eq.
    by rewrite list_lookup_insert_ne.
Qed.

Lemma smaller_child_ok (h : list A) childpos :
  childpos < length h →
  ∃ c, smaller_child ltb h (length h) childpos = Some c ∧
       (c = childpos ∨ c = childpos + 1) ∧ c < length h ∧
       ∀ o xo xc, o = childpos ∨ o = childpos + 1 →
                  h !! o = Some xo → h !! c = Some xc → ltb xo xc = false.
Proof.
  intros Hlt. unfold smaller_child.
  destruct (decide (childpos + 1 < length h)) as [Hr|Hr].
  - destruct (lookup_lt_is_Some_2 h childpos) as [l Hl]; [lia|].
    destruct (lookup_lt_is_Some_2 h (childpos + 1)) as [r Hr']; [lia|].
    rewrite Hl, Hr'. simpl. destruct (ltb l r) eqn:Hlr.
    + eexists; split; [done|]. split; [by left|]. split; [lia|].
      intros o xo xc [->| ->] Ho Hc; simplify_eq.
      * apply ltb_irrefl.
      * by apply ltb_asym.
    + eexists; split; [done|]. split; [by right|]. split; [lia|].
      intros o xo xc [->| ->] Ho Hc; simplify_eq.
      * done.
      * apply ltb_irrefl.
  - eexists; split; [done|]. split; [by left|]. split; [lia|].
    intros o xo xc [->| ->] Ho Hc; simplify_eq.
    + apply ltb_irrefl.
    + apply lookup_lt_Some in Ho. lia.
Qed.

Lemma _siftup_loop_ok n : ∀ pos (h : list A) newitem,
  length h - pos ≤ n → pos < length h → sift_ok ltb h pos →
  ∃ h1 pos1, _siftup_loop ltb h (length h) pos = Some (h1, pos1) ∧
    length h1 = length h ∧ pos1 < length h ∧ length h ≤ 2 * pos1 + 1 ∧
    <[pos1:=newitem]> h1 ≡ₚ <[pos:=newitem]> h ∧ sift_ok ltb h1 pos1.
Proof.
  induction n as [|n IH]; intros pos h newitem Hn Hpos [HE HG]; [lia|].
  rewrite _siftup_loop_unfold.
  destruct (decide (2 * pos + 1 < length h)) as [Hc|Hc].
  - destruct (smaller_child_ok h (2 * pos + 1) Hc)
      as (c & -> & Hcc & Hclt & Hmin).
    destruct (lookup_lt_is_Some_2 h c Hclt) as [xc Hxc].
    cbn -[Nat.div Nat.mul]. rewrite Hxc. cbn -[Nat.div Nat.mul].
    unfold setitem. destruct (decide (pos < length h)); [|lia].
    cbn -[Nat.div Nat.mul].
    destruct (IH c (<[pos:=xc]> h) newitem)
      as (h1 & pos1 & Hrun & Hlen & Hp1 & Hleaf & Hperm & Hok).
    { rewrite length_insert. lia. }
    { rewrite length_insert. lia. }
    { split.
      - intros i x p ? ? ? Hi Hpi. lookup_cases.
        + eapply (Hmin i); [lia|done|done].
        + eapply (HG c); [lia|lia|lia|solve_lookup|solve_lookup].
        + eapply (HE i); [lia|lia|lia|solve_lookup|solve_lookup].
      - intros d x g ? ? Hd Hx Hg. lookup_cases.
        eapply (HE d); [lia|lia|lia|solve_lookup|solve_lookup]. }
    rewrite length_insert in Hrun, Hlen, Hp1, Hleaf.
    exists h1, pos1. split; [done|]. split; [done|]. split; [done|].
    split; [done|]. split; [|done]. rewrite Hperm.
    rewrite <- (list_insert_insert_eq h pos xc newitem).
    apply Permutation_insert_swap; solve_lookup.
  - exists h, pos. split; [done|]. split; [done|]. split; [done|].
    split; [lia|]. done.
Qed.

Lemma sift_ok_leaf (h : list A) pos newitem :
  length h ≤ 2 * pos + 1 → sift_ok ltb h pos → hole_ok ltb (<[pos:=newitem]> h) pos.
Proof.
  intros Hleaf [HE HG]. split.
  - intros i x p ? ? Hi Hpi. lookup_cases.
    + lookup_absurd.
    + by eapply (HE i).
  - intros c x g ? ? Hc Hx Hg. lookup_cases. lookup_absurd.
Qed.

Lemma _siftup_ok (h : list A) :
  0 < length h → sift_ok ltb h 0 →
  ∃ r, _siftup ltb h 0 = Some r ∧ heap_ok ltb r ∧ r ≡ₚ h.
Proof.
  intros Hlen Hok. unfold _siftup.
  destruct (lookup_lt_is_Some_2 h 0 Hlen) as [newitem Hn]. rewrite Hn. simpl.
  destruct (_siftup_loop_ok (length h) 0 h newitem)
    as (h1 & pos1 & -> & Hlen1 & Hp1 & Hleaf & Hperm & Hok1); [lia|done|done|].
  simpl. unfold setitem. destruct (decide (pos1 < length h1)); [|lia]. simpl.
  unfold _siftdown. rewrite list_lookup_insert_eq by lia. simpl.
  destruct (_siftdown_loop_ok pos1 (<[pos1:=newitem]> h1) newitem)
    as (r & -> & Hr & Hpr).
  { rewrite length_insert. lia. }
  { rewrite list_insert_insert_eq. apply sift_ok_leaf; [lia|done]. }
  exists r. split; [done|]. split; [done|].
  rewrite Hpr, list_insert_insert_eq, Hperm. by rewrite list_insert_id.
Qed.

Lemma heappush_ok (h : list A) item :
  heap_ok ltb h →
  ∃ r, heappush ltb h item = Some r ∧ heap_ok ltb r ∧ r ≡ₚ item :: h.
Proof.
  intros Hok. unfold heappush, _siftdown.
  rewrite length_app, Nat.add_sub. simpl.
  rewrite lookup_app_r, Nat.sub_diag by lia. simpl.
  destruct (_siftdown_loop_ok (length h) (h ++ [item]) item)
    as (r & -> & Hr & Hpr).
  { rewrite length_app. simpl. lia. }
  { rewrite list_insert_id by (rewrite lookup_app_r, Nat.sub_diag by lia; done).
    split.
    - intros i x p ? ? Hi Hpi.
      assert (i < length h).
      { apply lookup_lt_Some in Hi. rewrite length_app in Hi. simpl in Hi. lia. }
      rewrite lookup_app_l in Hi, Hpi by lia. by eapply (Hok i).
    - intros c x g ? ? Hc Hx Hg.
      apply lookup_lt_Some in Hx. rewrite length_app in Hx. simpl in Hx. lia. }
  exists r. split; [done|]. split; [done|].
  rewrite Hpr, list_insert_id
    by (rewrite lookup_app_r, Nat.sub_diag by lia; done).
  by rewrite Permutation_app_comm.
Qed.

(** [heappush] moves only items that are greater than the new one. *)
Lemma heappush_frame (h r : list A) item :
  heappush ltb h item = Some r →
  ∀ i y, h !! i = Some y → ltb item y = false → r !! i = Some y.
Proof.
  unfold heappush, _siftdown. intros Hr i y Hi Hlt.
  rewrite length_app, Nat.add_sub in Hr. simpl in Hr.
  rewrite lookup_app_r, Nat.sub_diag in Hr by lia. simpl in Hr.
  eapply _siftdown_loop_frame; [exact Hr| | |done].
  - apply lookup_lt_Some in Hi. lia.
  - by apply lookup_app_l_Some.
Qed.

Lemma heappop_ok (h : list A) :
  heap_ok ltb h → h ≠ [] →
  ∃ x h', heappop ltb h = Some (x, h') ∧ h !! 0 = Some x ∧ heap_ok ltb h' ∧
          h ≡ₚ x :: h'.
Proof.
  intros Hok Hne. destruct (exists_last Hne) as (heap1 & lastelt & ->).
  unfold heappop, list_pop. rewrite last_snoc. simpl.
  rewrite removelast_last. destruct heap1 as [|x t].
  - exists lastelt, []. split; [done|]. split; [done|]. split; [|done].
    intros i ? ? ? Hi. by destruct i.
  - simpl. destruct (_siftup_ok (lastelt :: t)) as (r & Hr & Hokr & Hperm).
    { simpl. lia. }
    { split; [|intros; lia].
      intros i y p ? ? ? Hi Hpi. destruct i as [|i]; [lia|].
      eapply (Hok (S i)); [lia| |].
      - simpl. simpl in Hi. by apply lookup_app_l_Some.
      - destruct ((S i - 1) / 2) as [|k] eqn:Hk; [lia|].
        simpl. simpl in Hpi. by apply lookup_app_l_Some. }
    change (setitem (x :: t) 0 lastelt) with (Some (lastelt :: t)).
    simpl. rewrite Hr. simpl.
    exists x, r. split; [done|]. split; [done|]. split; [done|].
    rewrite Hperm. rewrite <- Permutation_cons_append. done.
Qed.

(** The root of a heap is not greater than any of its items. *)
Lemma heap_ok_root (h : list A) x :
  heap_ok ltb h → h !! 0 = Some x → ∀ i y, h !! i = Some y → ltb y x = false.
Proof.
  intros Hok Hx i. induction i as [i IH] using lt_wf_ind. intros y Hy.
  destruct (decide (i = 0)) as [->|]; [simplify_eq; apply ltb_irrefl|].
  destruct (lookup_lt_is_Some_2 h ((i - 1) / 2)) as [p Hp].
  { apply lookup_lt_Some in Hy. lia. }
  eapply ltb_negtrans; [eapply (Hok i); [lia|done|done]|].
  eapply (IH ((i - 1) / 2)); [lia|done].
Qed.

Lemma drain_ok n : ∀ h : list A,
  heap_ok ltb h → length h = n →
  drain ltb n h ≡ₚ h ∧
  StronglySorted (λ a b, ltb b a = false) (drain ltb n h).
Proof.
  induction n as [|n IH]; intros h Hok Hlen.
  - destruct h; [|done]. split; [done|constructor].
  - destruct (heappop_ok h Hok) as (x & h' & Hpop & Hx & Hok' & Hperm).
    { by intros ->. }
    simpl. rewrite Hpop.
    destruct (IH h' Hok') as [Hp Hs].
    { apply Permutation_length in Hperm. simpl in Hperm. lia. }
    split; [by rewrite Hp|]. constructor; [done|].
    apply Forall_forall. intros y Hy. rewrite Hp in Hy.
    assert (y ∈ h) as [i Hi]%list_elem_of_lookup by (rewrite Hperm; by right).
    exact (heap_ok_root h x Hok Hx i y Hi).
Qed.

End heap_theory.
End heap_theory.

(** ** The order of conversion events and the time-ordered queue *)

Import heapq heap_theory.

#[local] Arguments Qltb : simpl never.
#[local] Arguments Qplus : simpl never.
#[local] Arguments Qminus : simpl never.
#[local] Arguments Qmult : simpl never.

Lemma Qltb_lt x y : Qltb x y = true ↔ (x < y)%Q.
Proof. unfold Qltb, Qlt. apply Z.ltb_lt. Qed.

Lemma Qltb_ge x y : Qltb x y = false ↔ (y <= x)%Q.
Proof. unfold Qltb, Qle. apply Z.ltb_ge. Qed.

Lemma event_lt_asym x y :
  ConversionEvent.__lt__ x y = true → ConversionEvent.__lt__ y x = false.
Proof.
  unfold ConversionEvent.__lt__. rewrite Qltb_lt, Qltb_ge. apply Qlt_le_weak.
Qed.

Lemma event_lt_negtrans x y z :
  ConversionEvent.__lt__ x y = false → ConversionEvent.__lt__ y z = false →
  ConversionEvent.__lt__ x z = false.
Proof.
  unfold ConversionEvent.__lt__. rewrite !Qltb_ge. intros ? ?.
  by apply Qle_trans with (ConversionEvent.converted_at y).
Qed.

Lemma is_heap_nil : is_heap [].
Proof. intros i x p _ Hi. by destruct i. Qed.

Lemma put_total queue item :
  ∃ queue', PriorityQueue._put queue item = Some queue' ∧
            queue' ≡ₚ item :: queue.
Proof. apply heappush_total. Qed.

Lemma put_is_heap queue item queue' :
  is_heap queue → PriorityQueue._put queue item = Some queue' →
  is_heap queue'.
Proof.
  intros Hq Hput.
  destruct (heappush_ok _ event_lt_asym event_lt_negtrans queue item Hq)
    as (r & Hr & Hok & _).
  unfold PriorityQueue._put in Hput. by simplify_eq.
Qed.

Lemma get_total queue :
  queue ≠ [] →
  ∃ item queue', PriorityQueue._get queue = Some (item, queue') ∧
                 queue ≡ₚ item :: queue'.
Proof.
  intros Hne. destruct (heappop_total ConversionEvent.__lt__ queue Hne)
    as (x & h' & ? & ? & ?). by exists x, h'.
Qed.

Lemma get_is_heap queue item queue' :
  is_heap queue → PriorityQueue._get queue = Some (item, queue') →
  is_heap queue' ∧
  Forall (λ x, (ConversionEvent.converted_at item
                <= ConversionEvent.converted_at x)%Q) queue'.
Proof.
  intros Hq Hget. assert (queue ≠ []) as Hne by (by intros ->).
  destruct (heappop_ok _ event_lt_asym event_lt_negtrans queue Hq Hne)
    as (x & h' & Hpop & Hx & Hok & Hperm).
  unfold PriorityQueue._get in Hget. simplify_eq. split; [done|].
  apply Forall_forall. intros y Hy.
  assert (y ∈ queue) as [i Hi]%list_elem_of_lookup
    by (rewrite Hperm; by right).
  apply Qltb_ge.
  exact (heap_ok_root _ event_lt_asym event_lt_negtrans queue item Hq Hx i y Hi).
Qed.

Lemma apply_op_is_heap queue op : is_heap queue → is_heap (apply_op queue op).
Proof.
  intros Hq. destruct op as [item|]; simpl.
  - destruct (PriorityQueue._put queue item) eqn:Hput; [|done].
    by eapply put_is_heap.
  - destruct queue as [|x t]; [done|].
    destruct (PriorityQueue._get (x :: t)) as [[item q']|] eqn:Hget; [|done].
    by eapply get_is_heap.
Qed.

Lemma apply_ops_is_heap ops : ∀ queue,
  is_heap queue → is_heap (apply_ops queue ops).
Proof.
  induction ops as [|op ops IH]; intros queue Hq; [done|].
  apply IH. by apply apply_op_is_heap.
Qed.

(** C9. The order on conversion events is the order of their fire
    timestamps alone: [e1 < e2] holds exactly when [e1.converted_at] is
    strictly less than [e2.converted_at], whatever the leads and the
    amounts are, so that two events with equal timestamps are not less than
    each other in either direction. *)
Theorem event_order_is_timestamp_order (e1 e2 : ConversionEvent) :
  (ConversionEvent.__lt__ e1 e2 = true ↔
   (ConversionEvent.converted_at e1 < ConversionEvent.converted_at e2)%Q) ∧
  (∀ lead1 amount1 lead2 amount2,
     ConversionEvent.__lt__
       (ConversionEvent.mk (ConversionEvent.converted_at e1) lead1 amount1)
       (ConversionEvent.mk (ConversionEvent.converted_at e2) lead2 amount2)
     = ConversionEvent.__lt__ e1 e2) ∧
  ((ConversionEvent.converted_at e1 == ConversionEvent.converted_at e2)%Q →
   ConversionEvent.__lt__ e1 e2 = false ∧
   ConversionEvent.__lt__ e2 e1 = false).
Proof.
  split; [apply Qltb_lt|]. split; [done|].
  intros Heq. unfold ConversionEvent.__lt__. rewrite !Qltb_ge, Heq.
  split; apply Qle_refl.
Qed.

(** C3. Whatever inserts and take-earliest operations have been applied to
    an initially empty queue, the event that the next take-earliest returns
    has a fire timestamp less than or equal to that of every event left in
    the queue by that call. *)
Theorem get_returns_earliest (ops : list QueueOp) item queue' :
  PriorityQueue._get (apply_ops [] ops) = Some (item, queue') →
  Forall (λ x, (ConversionEvent.converted_at item
                <= ConversionEvent.converted_at x)%Q) queue'.
Proof.
  intros Hget. eapply get_is_heap; [|exact Hget].
  apply apply_ops_is_heap, is_heap_nil.
Qed.

(** ** Rounding to double precision *)

#[local] Arguments Qdiv : simpl never.
#[local] Arguments Qopp : simpl never.
#[local] Arguments Qpower : simpl never.

Lemma pow2_pos e : (0 < pow2 e)%Q.
Proof. apply Qpower_0_lt. reflexivity. Qed.

Lemma pow2_add a b : (pow2 (a + b) == pow2 a * pow2 b)%Q.
Proof. apply Qpower_plus. discriminate. Qed.

Lemma pow2_le a b : (a ≤ b)%Z → (pow2 a <= pow2 b)%Q.
Proof. intros H. apply Qpower_le_compat_l; [done|]. discriminate. Qed.

Lemma pow2_lt a b : (a < b)%Z → (pow2 a < pow2 b)%Q.
Proof. intros H. apply Qpower_lt_compat_l; [done|]. reflexivity. Qed.

Lemma pow2_Z a : (0 ≤ a)%Z → (pow2 a == inject_Z (2 ^ a))%Q.
Proof. intros H. unfold pow2. by rewrite Zpower_Qpower. Qed.

Lemma rne_floor q : (Qfloor q ≤ rne q ≤ Qfloor q + 1)%Z.
Proof.
  unfold rne. destruct (_ ?= _)%Q; [destruct (Z.even _)|..]; lia.
Qed.

Lemma rne_mono q1 q2 : (q1 <= q2)%Q → (rne q1 ≤ rne q2)%Z.
Proof.
  intros Hle. pose proof (Qfloor_resp_le _ _ Hle) as Hf.
  pose proof (rne_floor q1). pose proof (rne_floor q2).
  destruct (decide (Qfloor q1 = Qfloor q2)) as [Heq|]; [|lia].
  unfold rne. rewrite <- Heq.
  destruct (Qcompare_spec (q1 - inject_Z (Qfloor q1)) (1 # 2)) as [H1|H1|H1];
    destruct (Qcompare_spec (q2 - inject_Z (Qfloor q1)) (1 # 2)) as [H2|H2|H2];
    try destruct (Z.even _); try lia; exfalso; lra.
Qed.

Lemma rne_Z n : rne (inject_Z n) = n.
Proof.
  unfold rne. rewrite Qfloor_Z.
  destruct (Qcompare_spec (inject_Z n - inject_Z n) (1 # 2)) as [H|H|H];
    [exfalso; lra|done|exfalso; lra].
Qed.

Lemma binade_spec x :
  (0 < x)%Q → (pow2 (binade x) <= x < pow2 (binade x + 1))%Q.
Proof.
  intros Hx. destruct x as [n d]. unfold binade. cbn [Qnum Qden].
  assert (0 < n)%Z as Hn by (unfold Qlt in Hx; simpl in Hx; lia).
  pose proof (Z.log2_spec n Hn) as [Hn1 Hn2].
  pose proof (Z.log2_spec (Z.pos d) eq_refl) as [Hd1 Hd2].
  pose proof (Z.log2_nonneg n) as Hln. pose proof (Z.log2_nonneg (Z.pos d)) as Hld.
  set (ln := Z.log2 n) in *. set (ld := Z.log2 (Z.pos d)) in *.
  assert (∀ a b, (0 ≤ a)%Z → (0 ≤ b)%Z →
                 (pow2 (a - b) * inject_Z (2 ^ b) == inject_Z (2 ^ a))%Q)
    as Hsub.
  { intros a b Ha Hb. rewrite <- !pow2_Z by done. rewrite <- pow2_add.
    by replace (a - b + b)%Z with a by lia. }
  assert (n # d == inject_Z n / inject_Z (Z.pos d))%Q as Hq
    by apply Qmake_Qdiv.
  assert (0 < inject_Z (Z.pos d))%Q as Hdpos by reflexivity.
  assert (∀ b, (0 ≤ b)%Z → (0 < inject_Z (2 ^ b))%Q) as Hpos.
  { intros b Hb. rewrite <- pow2_Z by done. apply pow2_pos. }
  (* 2^(k-1) < x < 2^(k+1) *)
  assert (pow2 (ln - ld - 1) < n # d)%Q as Hlow.
  { rewrite Hq. apply Qlt_shift_div_l; [done|].
    apply (Qmult_lt_r _ _ (inject_Z (2 ^ (ld + 1)))); [apply Hpos; lia|].
    replace (ln - ld - 1)%Z with (ln - (ld + 1))%Z by lia.
    rewrite <- Qmult_assoc, (Qmult_comm (inject_Z (Z.pos d))), Qmult_assoc.
    rewrite Hsub by lia. rewrite <- !inject_Z_mult, <- Zlt_Qlt. nia. }
  assert (n # d < pow2 (ln - ld + 1))%Q as Hhigh.
  { rewrite Hq. apply Qlt_shift_div_r; [done|].
    apply (Qmult_lt_r _ _ (inject_Z (2 ^ ld))); [apply Hpos; lia|].
    replace (ln - ld + 1)%Z with (ln + 1 - ld)%Z by lia.
    rewrite <- Qmult_assoc, (Qmult_comm (inject_Z (Z.pos d))), Qmult_assoc.
    rewrite Hsub by lia. rewrite <- !inject_Z_mult, <- Zlt_Qlt. nia. }
  destruct (Qle_bool (pow2 (ln - ld)) (n # d)) eqn:Hb.
  - apply Qle_bool_iff in Hb. split; [done|done].
  - split; [by apply Qlt_le_weak|].
    replace (ln - ld - 1 + 1)%Z with (ln - ld)%Z by lia.
    apply Qnot_le_lt. intros H. apply Qle_bool_iff in H. congruence.
Qed.

Lemma binade_mono x y : (0 < x)%Q → (x <= y)%Q → (binade x ≤ binade y)%Z.
Proof.
  intros Hx Hxy. destruct (binade_spec x Hx) as [Hx1 _].
  destruct (binade_spec y) as [_ Hy2]; [lra|].
  destruct (Z.le_gt_cases (binade x) (binade y)) as [|Hgt]; [done|].
  exfalso. assert (pow2 (binade y + 1) <= pow2 (binade x))%Q
    by (apply pow2_le; lia). lra.
Qed.

Lemma ulp_pos x : (0 < ulp x)%Q.
Proof. apply pow2_pos. Qed.

Lemma round_pos_nonneg x : (0 < x)%Q → (0 <= round_pos x)%Q.
Proof.
  intros Hx. unfold round_pos. pose proof (ulp_pos x) as Hu.
  assert (0 ≤ rne (x / ulp x))%Z as H.
  { rewrite <- (rne_Z 0). apply rne_mono. apply Qle_shift_div_l; [done|].
    change (inject_Z 0) with 0%Q. lra. }
  rewrite Zle_Qle in H. apply Qmult_le_0_compat; [done|lra].
Qed.

Lemma round_pos_upper x :
  (0 < x)%Q → (round_pos x <= pow2 (Z.max (binade x) (-1022) + 1))%Q.
Proof.
  intros Hx. destruct (binade_spec x Hx) as [_ Hx2].
  unfold round_pos, ulp. set (e := Z.max (binade x) (-1022)).
  pose proof (pow2_pos (e - 52)) as Hu.
  assert (pow2 (binade x + 1) <= pow2 (e + 1))%Q by (apply pow2_le; lia).
  assert (pow2 (e + 1) == inject_Z (2 ^ 53) * pow2 (e - 52))%Q as Heq.
  { rewrite <- pow2_Z, <- pow2_add by lia. by replace (53 + (e - 52))%Z
      with (e + 1)%Z by lia. }
  assert (rne (x / pow2 (e - 52)) ≤ 2 ^ 53)%Z as Hr.
  { rewrite <- (rne_Z (2 ^ 53)). apply rne_mono.
    apply Qle_shift_div_r; [done|]. rewrite <- Heq. lra. }
  rewrite Heq. apply Qmult_le_compat_r; [|lra]. by rewrite <- Zle_Qle.
Qed.

Lemma round_pos_lower x :
  (0 < x)%Q → (-1022 ≤ binade x)%Z → (pow2 (binade x) <= round_pos x)%Q.
Proof.
  intros Hx He. destruct (binade_spec x Hx) as [Hx1 _].
  unfold round_pos, ulp. rewrite Z.max_l by done.
  pose proof (pow2_pos (binade x - 52)) as Hu.
  assert (pow2 (binade x) == inject_Z (2 ^ 52) * pow2 (binade x - 52))%Q
    as Heq.
  { rewrite <- pow2_Z, <- pow2_add by lia.
    by replace (52 + (binade x - 52))%Z with (binade x) by lia. }
  assert (2 ^ 52 ≤ rne (x / pow2 (binade x - 52)))%Z as Hr.
  { rewrite <- (rne_Z (2 ^ 52)) at 1. apply rne_mono.
    apply Qle_shift_div_l; [done|]. by rewrite <- Heq. }
  rewrite Heq. apply Qmult_le_compat_r; [|lra]. by rewrite <- Zle_Qle.
Qed.

Lemma round_pos_mono x y :
  (0 < x)%Q → (x <= y)%Q → (round_pos x <= round_pos y)%Q.
Proof.
  intros Hx Hxy. assert (0 < y)%Q as Hy by lra.
  pose proof (binade_mono x y Hx Hxy) as He.
  destruct (decide (Z.max (binade x) (-1022) = Z.max (binade y) (-1022)))
    as [Heq|Hne].
  - unfold round_pos, ulp. rewrite Heq.
    set (u := pow2 _). assert (0 < u)%Q as Hu by apply pow2_pos.
    apply Qmult_le_compat_r; [|lra]. rewrite <- Zle_Qle. apply rne_mono.
    apply Qle_shift_div_l; [done|].
    rewrite Qmult_comm, Qmult_div_r; [done|]. intros H. rewrite H in Hu.
    by apply Qlt_irrefl in Hu.
  - apply Qle_trans with (pow2 (Z.max (binade x) (-1022) + 1));
      [by apply round_pos_upper|].
    apply Qle_trans with (pow2 (binade y));
      [apply pow2_le; lia|apply round_pos_lower; [done|lia]].
Qed.

Lemma round64_mono x y : (x <= y)%Q → (round64 x <= round64 y)%Q.
Proof.
  intros Hxy. destruct x as [[|nx|nx] dx], y as [[|ny|ny] dy];
    unfold round64; cbn [Qnum].
  - apply Qle_refl.
  - by apply round_pos_nonneg.
  - by exfalso.
  - by exfalso.
  - by apply round_pos_mono.
  - by exfalso.
  - assert (0 <= round_pos (- (Z.neg nx # dx)))%Q
      by (by apply round_pos_nonneg). lra.
  - assert (0 <= round_pos (- (Z.neg nx # dx)))%Q
      by (by apply round_pos_nonneg).
    assert (0 <= round_pos (Z.pos ny # dy))%Q by (by apply round_pos_nonneg).
    lra.
  - assert (round_pos (- (Z.neg ny # dy)) <= round_pos (- (Z.neg nx # dx)))%Q.
    { apply round_pos_mono; [done|]. lra. }
    lra.
Qed.

Lemma round64_0 : round64 0 = 0%Q.
Proof. reflexivity. Qed.

Lemma round64_30 : (round64 30 == 30)%Q.
Proof. vm_compute. reflexivity. Qed.

(** The fire time of line 217 for a clock reading [now] and a value [r] of
    [random.random()]. *)
Lemma fire_time_range now r :
  (0 <= r < 1)%Q →
  (round64 now <= float_add now (float_mul r 30) <= round64 (now + 30))%Q.
Proof.
  intros [H0 H1]. unfold float_add, float_mul.
  pose proof (round64_mono 0 (r * 30)) as Hlow. rewrite round64_0 in Hlow.
  pose proof (round64_mono (r * 30) 30) as Hhigh. rewrite round64_30 in Hhigh.
  split; apply round64_mono; lra.
Qed.

(** ** Running the program *)

Lemma run_bind {A B} (m : M A) (f : A → M B) w s :
  (m ≫= f) w s =
  match m w s with
  | (Returned a, s') => f a w s'
  | (Raised e, s') => (Raised e, s')
  | (Blocked, s') => (Blocked, s')
  end.
Proof. done. Qed.

Lemma random_value_range bits : (0 <= random_value bits < 1)%Q.
Proof.
  unfold random_value, Qle, Qlt. simpl.
  pose proof (Z.mod_pos_bound (Z.of_N bits) (2 ^ 53) eq_refl). lia.
Qed.

Lemma random_random_run w s :
  random_random w s
  = (Returned (random_value (random_bits w (n_random s))), tick_random s).
Proof. done. Qed.

Lemma random_randint_run a b w s :
  (a ≤ b)%Z →
  random_randint a b w s
  = (Returned (a + randbelow_value (b - a + 1) (random_bits w (n_random s)))%Z,
     tick_random s).
Proof.
  intros Hab. unfold random_randint.
  destruct (Z.leb_spec (b - a + 1) 0); [lia|done].
Qed.

Lemma randint_range a b bits :
  (a ≤ b)%Z → (a ≤ a + randbelow_value (b - a + 1) bits ≤ b)%Z.
Proof.
  intros Hab. unfold randbelow_value.
  pose proof (Z.mod_pos_bound (Z.of_N bits) (b - a + 1)). lia.
Qed.

Lemma random_choice_run {X} (seq : list X) w s :
  seq ≠ [] →
  ∃ x, x ∈ seq ∧ random_choice seq w s = (Returned x, tick_random s).
Proof.
  intros Hne. destruct seq as [|x0 seq]; [done|].
  unfold random_choice. rewrite run_bind. unfold _randbelow.
  rewrite run_bind. unfold next_bits, mret, M_ret.
  set (i := randbelow_value _ _).
  assert (Z.to_nat i < length (x0 :: seq)) as Hi.
  { unfold i, randbelow_value.
    pose proof (Z.mod_pos_bound (Z.of_N (random_bits w (n_random s)))
                  (Z.of_nat (length (x0 :: seq)))). simpl in *. lia. }
  destruct (lookup_lt_is_Some_2 _ _ Hi) as [x Hx]. rewrite Hx.
  exists x. split; [|done]. by eapply list_elem_of_lookup_2.
Qed.

Lemma skip_random_0 s : skip_random 0 s = s.
Proof. by destruct s. Qed.

Lemma tick_random_skip s : tick_random s = skip_random 1 s.
Proof. done. Qed.

Lemma skip_skip_random j k s :
  skip_random j (skip_random k s) = skip_random (j + k) s.
Proof. unfold skip_random. simpl. f_equal. lia. Qed.

Lemma skip_random_intro s s' :
  queue s' = queue s → trace s' = trace s →
  n_fetchone s' = n_fetchone s → n_clock s' = n_clock s →
  n_queue s' = n_queue s → n_random s ≤ n_random s' →
  ∃ k, s' = skip_random k s.
Proof.
  intros. exists (n_random s' - n_random s). destruct s, s'.
  unfold skip_random. simpl in *. f_equal; (done || lia).
Qed.

Lemma random_letters_run n : ∀ w s,
  ∃ letters, random_letters n w s = (Returned letters, skip_random n s).
Proof.
  induction n as [|n IH]; intros w s; cbn [random_letters].
  - exists "". by rewrite skip_random_0.
  - rewrite run_bind.
    destruct (random_choice_run (String.list_ascii_of_string ascii_letters) w s)
      as (c & _ & ->); [done|].
    rewrite run_bind. destruct (IH w (tick_random s)) as (rest & ->).
    exists (String c rest). unfold mret, M_ret. f_equal.
    rewrite tick_random_skip, skip_skip_random. f_equal. lia.
Qed.

Lemma rand_lead_run w s :
  ∃ lead k, rand_lead w s = (Returned lead, skip_random k s) ∧
            Lead.id lead = None.
Proof.
  unfold rand_lead.
  rewrite run_bind, random_randint_run by lia.
  rewrite run_bind. edestruct random_letters_run as (name & ->).
  rewrite run_bind, random_randint_run by lia.
  rewrite run_bind. edestruct random_letters_run as (domain & ->).
  rewrite run_bind.
  edestruct (random_choice_run ["email"; "social"; "organic"; "referral"])
    as (utm_medium & Hm & ->); [done|].
  rewrite run_bind.
  assert (∃ sources, medium_to_sources !! utm_medium = Some sources ∧
                     sources ≠ []) as (sources & -> & Hne).
  { repeat (apply elem_of_cons in Hm as [->|Hm];
            [eexists; (split; [vm_compute; reflexivity|]); done|]).
    by apply elem_of_nil in Hm. }
  unfold mret at 1, M_ret at 1. rewrite run_bind.
  edestruct (random_choice_run sources) as (utm_source & _ & ->); [done|].
  unfold mret, M_ret.
  match goal with |- ∃ _ _, (_, ?s') = _ ∧ _ =>
    destruct (skip_random_intro s s') as [k ->]; [done..|simpl; lia|]
  end.
  by eexists _, _.
Qed.

(** ** The scheduler loop *)

Lemma queue_put_run item w s :
  ∃ queue', PriorityQueue._put (queue_now w s) item = Some queue' ∧
            queue' ≡ₚ item :: queue_now w s ∧
            queue_put item w s
            = (Returned tt, add_trace (QueuePut item) (tick_queue queue' s)).
Proof.
  destruct (put_total (queue_now w s) item) as (queue' & Hput & Hperm).
  exists queue'. unfold queue_put. by rewrite Hput.
Qed.

Lemma queue_get_run w s :
  (queue_now w s = [] ∧ queue_get w s = (Blocked, s)) ∨
  (∃ item queue',
     PriorityQueue._get (queue_now w s) = Some (item, queue') ∧
     queue_now w s ≡ₚ item :: queue' ∧
     queue_get w s
     = (Returned item, add_trace (QueueGet item) (tick_queue queue' s))).
Proof.
  unfold queue_get. destruct (queue_now w s) as [|x t] eqn:Hq; [by left|].
  right. destruct (get_total (x :: t)) as (item & queue' & Hget & Hperm);
    [done|].
  exists item, queue'. by rewrite Hget.
Qed.

Lemma time_time_run w s :
  time_time w s
  = (Returned (wall_clock w (n_clock s)),
     add_trace (TimeTime (wall_clock w (n_clock s))) (tick_clock s)).
Proof. done. Qed.

(** The two ways a turn of the loop can go, once an event has been taken. *)
Lemma convert_iteration_run w s e s1 :
  queue_get w s = (Returned e, s1) →
  let now := wall_clock w (n_clock s1) in
  let now' := wall_clock w (S (n_clock s1)) in
  trace s1 = trace s ++ [QueueGet e] ∧
  if Qltb PERIOD (ConversionEvent.converted_at e - now) then
    ∃ queue', PriorityQueue._put (queue_now w s1) e = Some queue' ∧
      queue' ≡ₚ e :: queue_now w s1 ∧
      convert_iteration w s
      = (Returned tt,
         add_trace (TimeSleep PERIOD)
           (add_trace (QueuePut e)
              (tick_queue queue' (add_trace (TimeTime now) (tick_clock s1)))))
  else
    convert_iteration w s
    = (Returned tt,
       add_trace (SqlUpdateConversion (ConversionEvent.conversion_amount e)
                                      (Lead.id (ConversionEvent.lead e)))
         (add_trace (TimeTime now')
            (tick_clock (add_trace (TimeTime now) (tick_clock s1))))).
Proof.
  intros Hget now now'. split.
  { destruct (queue_get_run w s) as [[_ Hb]|(item & q' & _ & _ & Hr)];
      rewrite Hget in *; by simplify_eq. }
  unfold convert_iteration. rewrite run_bind, Hget, run_bind.
  rewrite time_time_run. fold now. cbv beta iota.
  destruct (Qltb PERIOD (ConversionEvent.converted_at e - now)) eqn:Hlt.
  - rewrite run_bind.
    destruct (queue_put_run e w (add_trace (TimeTime now) (tick_clock s1)))
      as (queue' & Hput & Hperm & ->).
    exists queue'. done.
  - rewrite run_bind, time_time_run. done.
Qed.

(** C1. For every event [e] the loop takes from the queue and every reading
    [now] of the clock, the turn computes [slack = e.converted_at - now]; if
    [slack > PERIOD] (0.05 s) it puts [e] back and sleeps for [PERIOD], and
    otherwise it logs the conversion with exactly [e]'s lead identifier and
    [e]'s conversion amount, leaving the queue without [e]. *)
Theorem convert_iteration_spec w s e s1 :
  queue_get w s = (Returned e, s1) →
  let now := wall_clock w (n_clock s1) in
  let slack := (ConversionEvent.converted_at e - now)%Q in
  ∃ s', convert_iteration w s = (Returned tt, s') ∧
    ((PERIOD < slack)%Q →
       trace s' = trace s ++
         [QueueGet e; TimeTime now; QueuePut e; TimeSleep PERIOD] ∧
       PriorityQueue._put (queue_now w s1) e = Some (queue s')) ∧
    (¬ (PERIOD < slack)%Q →
       ∃ now',
         trace s' = trace s ++
           [QueueGet e; TimeTime now; TimeTime now';
            SqlUpdateConversion (ConversionEvent.conversion_amount e)
                                (Lead.id (ConversionEvent.lead e))] ∧
         queue s' = queue s1).
Proof.
  intros Hget now slack.
  destruct (convert_iteration_run w s e s1 Hget) as [Htr Hrun].
  fold now in Hrun. fold slack in Hrun.
  destruct (Qltb PERIOD slack) eqn:Hlt.
  - destruct Hrun as (queue' & Hput & _ & ->). eexists; split; [done|].
    apply Qltb_lt in Hlt. split; [|done]. intros _. split; [|done].
    simpl. rewrite Htr, <- !app_assoc. done.
  - eexists; split; [done|]. apply Qltb_ge in Hlt. split.
    + intros Hs. by apply Qlt_not_le in Hs.
    + intros _. eexists. split; [|done].
      simpl. rewrite Htr, <- !app_assoc. done.
Qed.

(** C2. The loop never finalizes an event early by more than the polling
    period: whatever the clock, the queue and the other thread do, the calls
    of [n] turns of the loop are a sequence of turns each of which either
    puts its event back, or finalizes an event [e] whose [converted_at] is at
    most [PERIOD] (0.05 s) greater than the time [now] read at that turn's
    readiness check; and the loop never raises. *)
Theorem convert_never_early n : ∀ w s,
  ∃ turns,
    trace (convert n w s).2 = trace s ++ concat turns ∧
    Forall (λ turn, requeue_turn turn ∨ finalize_turn turn) turns ∧
    ((convert n w s).1 = Returned tt ∨ (convert n w s).1 = Blocked).
Proof.
  induction n as [|n IH]; intros w s.
  { exists []. simpl. rewrite app_nil_r. auto. }
  cbn [convert]. rewrite run_bind.
  destruct (queue_get_run w s) as [[_ Hb]|(e & q' & _ & _ & Hget)].
  { unfold convert_iteration. rewrite run_bind, Hb.
    exists []. simpl. rewrite app_nil_r. auto. }
  destruct (convert_iteration_run w s _ _ Hget) as [Htr Hrun].
  set (s1 := add_trace (QueueGet e) (tick_queue q' s)) in *.
  set (now := wall_clock w (n_clock s1)) in *.
  destruct (Qltb PERIOD (ConversionEvent.converted_at e - now)) eqn:Hlt.
  - destruct Hrun as (queue' & _ & _ & ->).
    match goal with |- context [convert n w ?s'] =>
      destruct (IH w s') as (turns & Ht & Hall & Hout) end.
    exists ([QueueGet e; TimeTime now; QueuePut e; TimeSleep PERIOD] :: turns).
    split; [|split; [|done]].
    + rewrite Ht. simpl. rewrite <- !app_assoc. done.
    + constructor; [|done]. left. exists e, now. split; [done|].
      by apply Qltb_lt.
  - rewrite Hrun.
    match goal with |- context [convert n w ?s'] =>
      destruct (IH w s') as (turns & Ht & Hall & Hout) end.
    eexists ([QueueGet e; TimeTime now; TimeTime _;
              SqlUpdateConversion _ _] :: turns).
    split; [|split; [|done]].
    + rewrite Ht. simpl. rewrite <- !app_assoc. done.
    + constructor; [|done]. right. eexists e, now, _. split; [done|].
      apply Qltb_ge in Hlt. lra.
Qed.

(** ** Requeue *)

Lemma StronglySorted_weaken {A} (R1 R2 : A → A → Prop) (l : list A) :
  (∀ x y, R1 x y → R2 x y) → StronglySorted R1 l → StronglySorted R2 l.
Proof.
  intros HR. induction 1 as [|x l Hs IH Hall]; constructor; [done|].
  eapply Forall_impl; [exact Hall|]. intros y. apply HR.
Qed.

Lemma drain_sorted queue :
  is_heap queue →
  PriorityQueue.drain queue ≡ₚ queue ∧
  StronglySorted fires_first (PriorityQueue.drain queue).
Proof.
  intros Hq.
  destruct (drain_ok _ event_lt_asym event_lt_negtrans (length queue) queue)
    as [Hp Hs]; [done..|].
  split; [done|]. unfold PriorityQueue.drain.
  eapply StronglySorted_weaken; [|exact Hs].
  intros x y Hxy. by apply Qltb_ge in Hxy.
Qed.

Lemma filter_none {A} (P : A → Prop) `{∀ x, Decision (P x)} (l : list A) :
  Forall (λ x, ¬ P x) l → filter P l = [].
Proof.
  induction 1 as [|x l Hx Hl IH]; [done|]. by rewrite filter_cons_False.
Qed.

Lemma filter_all {A} (P : A → Prop) `{∀ x, Decision (P x)} (l : list A) :
  Forall P l → filter P l = l.
Proof.
  induction 1 as [|x l Hx Hl IH]; [done|].
  rewrite filter_cons_True by done. by f_equal.
Qed.

(** In a list sorted by fire time the events earlier than [e] come first. *)
Lemma sorted_earlier_first e l :
  StronglySorted fires_first l →
  l = filter (earlier_than e) l ++ filter (λ x, ¬ earlier_than e x) l.
Proof.
  induction 1 as [|x l Hs IH Hall]; [done|].
  destruct (decide (earlier_than e x)) as [Hx|Hx].
  - rewrite filter_cons_True, (filter_cons_False (λ x, ¬ earlier_than e x))
      by auto.
    simpl. by f_equal.
  - assert (Forall (λ y, ¬ earlier_than e y) l) as Hl.
    { eapply Forall_impl; [exact Hall|]. unfold fires_first, earlier_than in *.
      intros y Hy Hlt. apply Hx. lra. }
    rewrite filter_cons_False, (filter_cons_True (λ x, ¬ earlier_than e x))
      by done.
    rewrite (filter_none _ l Hl), (filter_all _ l Hl). done.
Qed.

(** Two arrangements of the same events by ascending fire time agree on
    the fire time at every position. *)
Lemma sorted_perm_same_times l1 l2 :
  StronglySorted fires_first l1 → StronglySorted fires_first l2 →
  l1 ≡ₚ l2 → Forall2 same_time l1 l2.
Proof.
  intros H1 H2 Hp.
  set (k := λ x, Qred (ConversionEvent.converted_at x)).
  assert (k <$> l1 = k <$> l2) as Heq.
  { apply (StronglySorted_unique_strong Qle).
    - intros x1 x2 (a & -> & _)%list_elem_of_fmap (b & -> & _)%list_elem_of_fmap.
      unfold k. rewrite !Qred_le. intros Hab Hba.
      by apply Qred_complete, Qle_antisym.
    - apply StronglySorted_fmap with fires_first; [|done].
      intros x y Hxy. by apply Qred_le.
    - apply StronglySorted_fmap with fires_first; [|done].
      intros x y Hxy. by apply Qred_le.
    - by rewrite Hp. }
  assert (Forall2 (λ a b, k a = k b) l1 l2) as Hk.
  { apply (Forall2_fmap k k eq). rewrite Heq.
    by apply Forall_Forall2_diag, Forall_true. }
  eapply Forall2_impl; [exact Hk|]. intros a b Hab. by apply Qred_eq_iff.
Qed.

(** In a list sorted by fire time, an event that fires strictly before
    another one stands before it and not after it. *)
Lemma sorted_occurs_before l x y :
  StronglySorted fires_first l → x ∈ l → y ∈ l → earlier_than y x →
  occurs_before l x y ∧ ¬ occurs_before l y x.
Proof.
  intros Hs Hx Hy Hxy. unfold earlier_than in Hxy. split.
  - apply list_elem_of_split in Hx as (l1 & l' & ->).
    apply StronglySorted_app in Hs as (Hcross & _ & _).
    apply elem_of_app in Hy as [Hy|Hy].
    + exfalso. specialize (Hcross y x Hy ltac:(by left)).
      unfold fires_first in Hcross. lra.
    + apply elem_of_cons in Hy as [->|Hy]; [exfalso; lra|].
      apply list_elem_of_split in Hy as (l2 & l3 & ->). by exists l1, l2, l3.
  - intros (l1 & l2 & l3 & ->).
    apply StronglySorted_app in Hs as (_ & _ & Hs).
    apply StronglySorted_inv in Hs as [_ Hall].
    apply Forall_app in Hall as [_ Hall].
    apply Forall_cons in Hall as [Hyx _].
    unfold fires_first in Hyx. lra.
Qed.

(** C5 (as the code has it). When the loop puts back an event that is not
    yet due, the event put is the event taken, unchanged (same fire
    timestamp, lead and amount), and the queue holds exactly that event and
    the events pending at that moment.  The order of the pending events by
    fire timestamp is not disturbed: no pending event that fires no later
    than the event put back changes its place in the queue's list; of two
    pending events with different fire timestamps the earlier one is handed
    out first, as it would be without the event put back; and the pending
    events with strictly smaller timestamps are handed out before it, by
    ascending fire timestamps, at the same fire timestamps in the same
    sequence as they would be without it.  The order in which pending
    events with exactly the same fire timestamp are handed out is not part
    of the statement: the event put back can change it. *)
Theorem requeue_preserves w s e s1 :
  is_heap (queue s) →
  queue_get w s = (Returned e, s1) →
  let now := wall_clock w (n_clock s1) in
  (PERIOD < ConversionEvent.converted_at e - now)%Q →
  let pending := queue_now w s1 in
  ∃ s', convert_iteration w s = (Returned tt, s') ∧
    trace s' = trace s ++
      [QueueGet e; TimeTime now; QueuePut e; TimeSleep PERIOD] ∧
    queue s' ≡ₚ e :: pending ∧
    (∀ i x, pending !! i = Some x → fires_first x e →
            queue s' !! i = Some x) ∧
    (∀ x y, x ∈ pending → y ∈ pending → earlier_than y x →
            occurs_before (PriorityQueue.drain pending) x y ∧
            occurs_before (PriorityQueue.drain (queue s')) x y ∧
            ¬ occurs_before (PriorityQueue.drain (queue s')) y x) ∧
    ∃ before after,
      PriorityQueue.drain (queue s') = before ++ after ∧
      before ≡ₚ filter (earlier_than e) pending ∧
      StronglySorted fires_first before ∧
      Forall2 same_time before
        (filter (earlier_than e) (PriorityQueue.drain pending)) ∧
      e ∈ after ∧
      Forall (fires_first e) after.
Proof.
  intros Hheap Hget now Hslack pending.
  destruct (convert_iteration_run w s e s1 Hget) as [Htr Hrun].
  fold now in Hrun. rewrite (proj2 (Qltb_lt _ _) Hslack) in Hrun.
  destruct Hrun as (queue' & Hput & Hperm & ->). fold pending in Hput, Hperm.
  eexists; split; [done|]. simpl.
  split; [rewrite Htr, <- !app_assoc; done|]. split; [done|].
  split.
  { intros i x Hi Hx. eapply heappush_frame; [exact Hput|exact Hi|].
    by apply Qltb_ge. }
  assert (is_heap pending) as Hpending.
  { destruct (queue_get_run w s) as [[_ Hb]|(item & q1 & Hg & _ & Hr)];
      rewrite Hget in *; simplify_eq.
    apply apply_ops_is_heap. simpl.
    eapply get_is_heap; [|exact Hg]. by apply apply_ops_is_heap. }
  assert (is_heap queue') as Hq' by (by eapply put_is_heap).
  destruct (drain_sorted queue' Hq') as [Hdp Hds].
  destruct (drain_sorted pending Hpending) as [Hpp Hps].
  split.
  { intros x y Hx Hy Hxy.
    destruct (sorted_occurs_before (PriorityQueue.drain pending) x y)
      as [Hb _]; [done|by rewrite Hpp..|done|].
    destruct (sorted_occurs_before (PriorityQueue.drain queue') x y)
      as [Hb' Hn']; [done| | |done|done].
    all: rewrite Hdp, Hperm; by right. }
  exists (filter (earlier_than e) (PriorityQueue.drain queue')),
         (filter (λ x, ¬ earlier_than e x) (PriorityQueue.drain queue')).
  split; [by apply sorted_earlier_first|]. split.
  { rewrite Hdp, Hperm, filter_cons_False; [done|].
    unfold earlier_than. apply Qlt_irrefl. }
  assert (∀ l, StronglySorted fires_first l →
               StronglySorted fires_first (filter (earlier_than e) l))
    as Hfilter.
  { intros l Hl. rewrite (sorted_earlier_first e _ Hl) in Hl.
    by apply StronglySorted_app_1_l in Hl. }
  split; [by apply Hfilter|].
  split.
  { apply sorted_perm_same_times; [by apply Hfilter..|].
    rewrite Hdp, Hpp, Hperm, filter_cons_False; [done|].
    unfold earlier_than. apply Qlt_irrefl. }
  split.
  { apply list_elem_of_filter. split; [unfold earlier_than; apply Qlt_irrefl|].
    rewrite Hdp, Hperm. by left. }
  apply Forall_forall. intros x [Hx _]%list_elem_of_filter.
  unfold fires_first, earlier_than in *. lra.
Qed.

(** ** The values of the generator, counted

    [random.random()] and [random.randint] are functions of the raw value
    that the generator delivers.  Over any whole number of periods of raw
    values each result is taken equally often: this is what "uniformly
    random" says of the program, the raw values being the generator's. *)

Lemma filter_length_ext {A} (P Q : A → Prop) `{∀ x, Decision (P x)}
    `{∀ x, Decision (Q x)} (l : list A) :
  Forall (λ x, P x ↔ Q x) l → length (filter P l) = length (filter Q l).
Proof.
  induction 1 as [|x l Hx Hl IH]; [done|].
  destruct (decide (P x)) as [HP|HP].
  - rewrite !filter_cons_True by tauto. simpl. by f_equal.
  - rewrite !filter_cons_False by tauto. done.
Qed.

Lemma filter_length_fmap {A B} (f : A → B) (P : B → Prop)
    `{∀ x, Decision (P x)} (l : list A) :
  length (filter P (f <$> l)) = length (filter (λ x, P (f x)) l).
Proof.
  induction l as [|x l IH]; [done|]. rewrite fmap_cons.
  destruct (decide (P (f x))) as [HP|HP].
  - rewrite !filter_cons_True by done. simpl. by f_equal.
  - rewrite !filter_cons_False by done. done.
Qed.

(** Over [k] periods of length [n], a property of the residue modulo [n]
    holds [k] times as often as over one period. *)
Lemma count_periods (q : nat → Prop) `{∀ r, Decision (q r)} n k :
  length (filter (λ b, q (b mod n)) (seq 0 (k * n)))
  = k * length (filter q (seq 0 n)).
Proof.
  induction k as [|k IH]; [done|].
  replace (S k * n) with (k * n + n) by lia.
  rewrite seq_app, filter_app, length_app, IH, Nat.add_0_l.
  replace (S k * length (filter q (seq 0 n)))
    with (k * length (filter q (seq 0 n)) + length (filter q (seq 0 n)))
    by lia.
  f_equal.
  replace (seq (k * n) n) with ((λ x, k * n + x) <$> seq 0 n)
    by (rewrite fmap_add_seq; f_equal; lia).
  rewrite (filter_length_fmap (λ x, k * n + x) (λ b, q (b mod n))).
  apply filter_length_ext, Forall_forall. intros x Hx%elem_of_seq.
  replace ((k * n + x) mod n) with x; [done|].
  rewrite Nat.add_comm, Nat.Div0.mod_add. symmetry. apply Nat.mod_small. lia.
Qed.

Lemma count_one n j :
  j < n → length (filter (λ r, r = j) (seq 0 n)) = 1.
Proof.
  intros Hj. replace n with (j + (1 + (n - j - 1))) by lia.
  rewrite !seq_app, !filter_app, !length_app.
  rewrite (filter_none _ (seq 0 j)), (filter_all _ (seq (0 + j) 1)),
    (filter_none _ (seq (0 + j + 1) (n - j - 1))); [done|..].
  all: apply Forall_forall; intros x Hx%elem_of_seq; lia.
Qed.

Lemma count_below n m :
  m ≤ n → length (filter (λ r, r < m) (seq 0 n)) = m.
Proof.
  intros Hm. replace n with (m + (n - m)) by lia.
  rewrite seq_app, filter_app, length_app.
  rewrite (filter_all _ (seq 0 m)), (filter_none _ (seq (0 + m) (n - m))).
  - simpl. rewrite length_seq. lia.
  - apply Forall_forall; intros x Hx%elem_of_seq; lia.
  - apply Forall_forall; intros x Hx%elem_of_seq; lia.
Qed.

(** Each of the [2^53] values of [random.random()] is taken by the same
    number of raw values: [k] of the first [k * 2^53]. *)
Lemma random_value_count k j :
  (0 ≤ j < 2 ^ 53)%Z →
  count_raw (λ bits, Qeq_bool (random_value bits) (j # 2 ^ 53))
            (k * Z.to_nat (2 ^ 53)) = k.
Proof.
  intros Hj. unfold count_raw.
  transitivity (k * 1); [|lia].
  rewrite <- (count_one (Z.to_nat (2 ^ 53)) (Z.to_nat j)) by lia.
  rewrite <- (count_periods (λ r, r = Z.to_nat j)).
  apply filter_length_ext, Forall_forall. intros b _.
  rewrite Qeq_bool_iff. unfold random_value, Qeq. cbn [Qnum Qden].
  lia.
Qed.

(** A flip against the score [m / 2^53] succeeds for [k * m] of the first
    [k * 2^53] raw values. *)
Lemma flip_count k m :
  (0 ≤ m ≤ 2 ^ 53)%Z →
  count_raw (λ bits, Qltb (random_value bits) (m # 2 ^ 53))
            (k * Z.to_nat (2 ^ 53)) = k * Z.to_nat m.
Proof.
  intros Hm. unfold count_raw.
  transitivity (k * length (filter (λ r, r < Z.to_nat m)
                                    (seq 0 (Z.to_nat (2 ^ 53)))));
    [|by rewrite count_below by lia].
  rewrite <- (count_periods (λ r, r < Z.to_nat m)).
  apply filter_length_ext, Forall_forall. intros b _.
  rewrite Qltb_lt. unfold random_value, Qlt. cbn [Qnum Qden].
  lia.
Qed.

(** Each value of [randint(lo, hi)] is taken by the same number of raw
    values: [k] of the first [k * (hi - lo + 1)]. *)
Lemma randint_count lo hi k a :
  (lo ≤ a ≤ hi)%Z →
  count_raw (λ bits, (lo + randbelow_value (hi - lo + 1) bits =? a)%Z)
            (k * Z.to_nat (hi - lo + 1)) = k.
Proof.
  intros Ha. unfold count_raw.
  transitivity (k * 1); [|lia].
  rewrite <- (count_one (Z.to_nat (hi - lo + 1)) (Z.to_nat (a - lo))) by lia.
  rewrite <- (count_periods (λ r, r = Z.to_nat (a - lo))).
  apply filter_length_ext, Forall_forall. intros b _.
  rewrite Z.eqb_eq. unfold randbelow_value.
  assert (Z.of_nat (b mod Z.to_nat (hi - lo + 1))
          = Z.of_N (N.of_nat b) mod (hi - lo + 1))%Z as Hmod
    by (rewrite Nat2Z.inj_mod, Z2Nat.id, nat_N_Z by lia; done).
  revert Hmod. generalize (b mod Z.to_nat (hi - lo + 1)).
  generalize (Z.of_N (N.of_nat b) mod (hi - lo + 1))%Z. lia.
Qed.

(** ** The lead pipeline *)

Lemma log_run ev w s : log ev w s = (Returned tt, add_trace ev s).
Proof. done. Qed.

Lemma cur_fetchone_run w s :
  cur_fetchone w s = (Returned (db_fetchone w (n_fetchone s)), tick_fetchone s).
Proof. done. Qed.

Lemma datetime_now_run w s :
  datetime_now w s = (Returned (wall_clock w (n_clock s)), tick_clock s).
Proof. done. Qed.

(** What the first part of [create_lead] does, in terms of the answers of
    the world: [lead0] is the lead that [rand_lead] made, with [k] values of
    the generator. *)
Lemma create_lead_predict_run w s :
  ∃ lead0 k,
    rand_lead w s = (Returned lead0, skip_random k s) ∧
    Lead.id lead0 = None ∧
    let insert := SqlInsertLead (Lead.email lead0) (Lead.utm_medium lead0)
                                (Lead.utm_source lead0) in
    let s1 := tick_fetchone (add_trace insert (skip_random k s)) in
    create_lead_predict w s =
    match db_fetchone w (n_fetchone s) with
    | None => (Raised (RuntimeError lead0), s1)
    | Some res0 =>
        let lead := Lead.mk (Lead.email lead0) (Lead.utm_medium lead0)
                            (Lead.utm_source lead0) (Some res0) in
        let score := random_value (random_bits w (n_random s1)) in
        let label := (if Qltb 0.5 score then 1 else 0)%Z in
        let bucket := experiment_bucket res0 in
        let record :=
          Prediction.mk (Some res0) bucket score label
                        (wall_clock w (n_clock s)) in
        let s2 := add_trace (KafkaSend "conversion_predictions" record)
                            (tick_clock (tick_random s1)) in
        if bool_decide (label = 0%Z) && bool_decide (bucket ≠ "control") then
          let coupon_amount :=
            (500 + randbelow_value 4501 (random_bits w (n_random s2)))%Z in
          (Returned (lead, score, true),
           add_trace (SqlInsertCoupon (Some res0) coupon_amount)
                     (tick_random s2))
        else (Returned (lead, score, false), s2)
    end.
Proof.
  destruct (rand_lead_run w s) as (lead0 & k & Hrun & Hid).
  exists lead0, k. split; [done|]. split; [done|].
  unfold create_lead_predict. rewrite run_bind, Hrun.
  rewrite run_bind. unfold cur_execute at 1. rewrite log_run.
  rewrite run_bind, cur_fetchone_run.
  change (n_fetchone (add_trace _ (skip_random k s))) with (n_fetchone s).
  destruct (db_fetchone w (n_fetchone s)) as [res0|]; [|done].
  rewrite run_bind, random_random_run. cbv zeta.
  set (score := random_value _).
  rewrite run_bind. unfold log_prediction.
  rewrite run_bind, datetime_now_run, log_run.
  destruct (bool_decide _ && bool_decide _); [|done].
  rewrite run_bind, random_randint_run by lia.
  rewrite run_bind. unfold log_coupon, cur_execute. rewrite log_run. done.
Qed.

(** What the second part of [create_lead] does, in terms of the answers of
    the world. *)
Lemma create_lead_convert_run lead score sent_coupon w s :
  let r := random_value (random_bits w (n_random s)) in
  let r' := random_value (random_bits w (S (n_random s))) in
  let again := sent_coupon && negb (Qltb r score) in
  let did_convert := if again then Qltb r' score else Qltb r score in
  let s1 := if again then tick_random (tick_random s) else tick_random s in
  if did_convert then
    let now := wall_clock w (n_clock s1) in
    let r'' := random_value (random_bits w (n_random s1)) in
    let amount :=
      (1000 + randbelow_value 24001 (random_bits w (S (n_random s1))))%Z in
    let event :=
      ConversionEvent.mk (float_add now (float_mul r'' 30)) lead amount in
    let s2 :=
      tick_random (tick_random (add_trace (TimeTime now) (tick_clock s1))) in
    ∃ queue',
      PriorityQueue._put (queue_now w s1) event = Some queue' ∧
      queue' ≡ₚ event :: queue_now w s1 ∧
      create_lead_convert lead score sent_coupon w s
      = (Returned tt, add_trace (QueuePut event) (tick_queue queue' s2))
  else
    create_lead_convert lead score sent_coupon w s = (Returned tt, s1).
Proof.
  intros r r' again did_convert s1.
  assert (create_lead_convert lead score sent_coupon w s
          = (if did_convert
             then (now ← time_time;
                   r'' ← random_random;
                   conversion_amount ← random_randint 1000 25000;
                   queue_put (ConversionEvent.mk
                                (float_add now (float_mul r'' 30)) lead
                                conversion_amount))
             else mret tt) w s1) as ->.
  { unfold create_lead_convert. rewrite run_bind, random_random_run.
    fold r. cbv zeta. rewrite run_bind. subst did_convert s1. fold again.
    destruct again; [|done]. by rewrite run_bind, random_random_run. }
  destruct did_convert; [|done]. intros now r'' amount event s2.
  rewrite run_bind, time_time_run. fold now.
  rewrite run_bind, random_random_run.
  rewrite run_bind, random_randint_run by lia.
  destruct (queue_put_run event w s2) as (queue' & Hput & Hperm & Hrun).
  exists queue'. done.
Qed.

(** C8 (as the code has it). The conversion decision and the enqueue step.
    The lead converts exactly when a first flip [random() < score] succeeds,
    or a coupon was sent, the first flip failed and a second flip, made with
    the next value of the generator, succeeds.  The flips are weighted by
    the score: against a score [m / 2^53] a flip succeeds for [m] out of
    every [2^53] raw values of the generator.  When the lead converts, the
    fire time is [now + r * 30] in double precision, for the clock reading
    [now] and the next value [r] of [random()], which takes each of its
    [2^53] values in [[0, 1)] equally often: the fire time lies between
    [now] and [now + 30] as doubles, hence at or after [now] when the clock
    reading is a double, and the end [now + 30] is included, which rounding
    reaches.  The amount is the next value of [randint(1000, 25000)], which
    takes each amount of 1000 to 25000 equally often, and one event with
    that fire time, the lead and that amount is put on the queue.  When the
    lead does not convert, nothing is put on the queue. *)
Theorem conversion_rule lead score sent_coupon w s :
  let flip1 := Qltb (random_value (random_bits w (n_random s))) score in
  let flip2 := Qltb (random_value (random_bits w (S (n_random s)))) score in
  let converts := flip1 || (sent_coupon && negb flip1 && flip2) in
  let flips := if sent_coupon && negb flip1 then 2 else 1 in
  (∀ k m, (0 ≤ m ≤ 2 ^ 53)%Z →
     count_raw (λ bits, Qltb (random_value bits) (m # 2 ^ 53))
               (k * Z.to_nat (2 ^ 53)) = k * Z.to_nat m) ∧
  (∀ k j, (0 ≤ j < 2 ^ 53)%Z →
     count_raw (λ bits, Qeq_bool (random_value bits) (j # 2 ^ 53))
               (k * Z.to_nat (2 ^ 53)) = k) ∧
  (∀ k a, (1000 ≤ a ≤ 25000)%Z →
     count_raw (λ bits, (1000 + randbelow_value 24001 bits =? a)%Z)
               (k * Z.to_nat 24001) = k) ∧
  ∃ s', create_lead_convert lead score sent_coupon w s = (Returned tt, s') ∧
    if converts then
      let now := wall_clock w (n_clock s) in
      let r := random_value (random_bits w (flips + n_random s)) in
      let amount :=
        (1000 + randbelow_value 24001
                  (random_bits w (S (flips + n_random s))))%Z in
      let event :=
        ConversionEvent.mk (float_add now (float_mul r 30)) lead amount in
      (0 <= r < 1)%Q ∧
      (round64 now <= ConversionEvent.converted_at event
       <= round64 (now + 30))%Q ∧
      (round64 now == now → now <= ConversionEvent.converted_at event)%Q ∧
      (1000 ≤ amount ≤ 25000)%Z ∧
      trace s' = trace s ++ [TimeTime now; QueuePut event] ∧
      PriorityQueue._put (queue_now w s) event = Some (queue s') ∧
      queue s' ≡ₚ event :: queue_now w s
    else trace s' = trace s ∧ queue s' = queue s.
Proof.
  intros flip1 flip2 converts flips.
  split; [apply flip_count|]. split; [apply random_value_count|].
  split; [intros k a; apply (randint_count 1000 25000)|].
  pose proof (create_lead_convert_run lead score sent_coupon w s) as Hrun.
  cbv zeta in Hrun. fold flip1 flip2 in Hrun.
  assert ((if sent_coupon && negb flip1 then flip2 else flip1) = converts)
    as Hc by (subst converts; by destruct flip1, sent_coupon, flip2).
  rewrite Hc in Hrun. subst flips. destruct converts.
  - destruct Hrun as (queue' & Hput & Hperm & ->).
    eexists; split; [done|]. cbv zeta.
    destruct (sent_coupon && negb flip1).
    all: split; [apply random_value_range|].
    all: split; [apply fire_time_range, random_value_range|].
    all: split;
      [intros Hd; eapply Qle_trans;
         [|apply fire_time_range, random_value_range];
       rewrite Hd; apply Qle_refl|].
    all: split; [apply (randint_range 1000 25000); lia|].
    all: split; [simpl; by rewrite <- app_assoc|done].
  - rewrite Hrun. eexists; split; [done|].
    by destruct (sent_coupon && negb flip1).
Qed.

Lemma experiment_bucket_not_control lead_id :
  experiment_bucket lead_id ≠ "control" ↔
  experiment_bucket lead_id = "experiment".
Proof. unfold experiment_bucket. by destruct (_ <=? _)%Z. Qed.



Lemma create_lead_convert_trace lead score sent_coupon w s :
  ∃ s', create_lead_convert lead score sent_coupon w s = (Returned tt, s') ∧
    ((trace s' = trace s ∧ queue s' = queue s) ∨
     (∃ now event,
        ConversionEvent.lead event = lead ∧
        trace s' = trace s ++ [TimeTime now; QueuePut event])).
Proof.
  pose proof (create_lead_convert_run lead score sent_coupon w s) as Hrun.
  cbv zeta in Hrun.
  destruct (sent_coupon && negb _);
    match type of Hrun with if ?b then _ else _ => destruct b end.
  all: try (destruct Hrun as (queue' & _ & _ & ->); eexists; split; [done|];
            right; eexists _, _; split; [|simpl; by rewrite <- app_assoc];
            done).
  all: rewrite Hrun; eexists; split; [done|]; by left.
Qed.

Lemma create_lead_no_row w s :
  db_fetchone w (n_fetchone s) = None →
  ∃ lead s',
    create_lead w s = (Raised (RuntimeError lead), s') ∧
    Lead.id lead = None ∧
    trace s' = trace s ++
      [SqlInsertLead (Lead.email lead) (Lead.utm_medium lead)
                     (Lead.utm_source lead)] ∧
    queue s' = queue s.
Proof.
  intros Hrow. unfold create_lead. rewrite run_bind.
  destruct (create_lead_predict_run w s) as (lead0 & k & _ & Hid & ->).
  cbv zeta. rewrite Hrow. by eexists _, _.
Qed.

(** What one call of [create_lead] puts on the queue. *)
Lemma create_lead_puts w s :
  ∃ new,
    trace (create_lead w s).2 = trace s ++ new ∧
    (∀ e, QueuePut e ∈ new →
       ∃ i, db_fetchone w (n_fetchone s) = Some i ∧
            Lead.id (ConversionEvent.lead e) = Some i) ∧
    (db_fetchone w (n_fetchone s) = None →
       (∃ lead, (create_lead w s).1 = Raised (RuntimeError lead)) ∧
       (∀ e, QueuePut e ∉ new) ∧
       queue (create_lead w s).2 = queue s).
Proof.
  destruct (db_fetchone w (n_fetchone s)) as [res0|] eqn:Hrow.
  - unfold create_lead. rewrite run_bind.
    destruct (create_lead_predict_run w s) as (lead0 & k & _ & _ & ->).
    cbv zeta. rewrite Hrow.
    set (lead := Lead.mk _ _ _ (Some res0)).
    assert (∀ score sent_coupon s1 pre,
              trace s1 = trace s ++ pre →
              (∀ e, QueuePut e ∉ pre) →
              ∃ new,
                trace (create_lead_convert lead score sent_coupon w s1).2
                = trace s ++ new ∧
                ∀ e, QueuePut e ∈ new →
                     ∃ i, Some res0 = Some i ∧
                          Lead.id (ConversionEvent.lead e) = Some i) as Hconv.
    { intros score sent_coupon s1 pre Hpre Hno.
      destruct (create_lead_convert_trace lead score sent_coupon w s1)
        as (s' & -> & [[Ht _]|(now & event & Hlead & Ht)]).
      - exists pre. split; [simpl; congruence|]. intros e He. by apply Hno in He.
      - exists (pre ++ [TimeTime now; QueuePut event]).
        split; [simpl; rewrite Ht, Hpre, <- app_assoc; done|].
        intros e [He|He]%elem_of_app; [by apply Hno in He|].
        apply elem_of_cons in He as [?|He]; [done|].
        apply list_elem_of_singleton in He. simplify_eq.
        exists res0. by rewrite Hlead. }
    destruct (bool_decide _ && bool_decide _);
      match goal with
      | |- context [create_lead_convert lead ?score ?b w ?s1] =>
          destruct (Hconv score b s1 (drop (length (trace s)) (trace s1)))
            as (new & Hnew & Hput)
      end.
    all: try (simpl; rewrite <- !app_assoc, drop_app_length; done).
    all: try (simpl; rewrite <- !app_assoc, drop_app_length; simpl;
              intros e He;
              repeat (apply elem_of_cons in He as [?|He]; [done|]);
              by apply elem_of_nil in He).
    all: exists new; (split; [exact Hnew|]); split; [exact Hput|done].
  - destruct (create_lead_no_row w s Hrow) as (lead & s' & -> & _ & Ht & Hq).
    eexists. split; [exact Ht|]. split.
    + intros e He. apply list_elem_of_singleton in He. done.
    + intros _. split; [by eexists|]. split; [|done].
      intros e He. apply list_elem_of_singleton in He. done.
Qed.

(** C10. Every event that the producer puts on the queue carries a lead
    whose identifier is set.  In one call of [create_lead] an event is put
    only if the INSERT returned a row, and its lead has that row's
    identifier; when no row is returned the call raises [RuntimeError]
    without having put anything on the queue.  Hence every event put during
    any number of turns of the producer loop has a lead with an
    identifier. *)
Theorem enqueued_lead_has_id w s :
  (∃ new,
     trace (create_lead w s).2 = trace s ++ new ∧
     (∀ e, QueuePut e ∈ new →
        ∃ i, db_fetchone w (n_fetchone s) = Some i ∧
             Lead.id (ConversionEvent.lead e) = Some i) ∧
     (db_fetchone w (n_fetchone s) = None →
        (∃ lead, (create_lead w s).1 = Raised (RuntimeError lead)) ∧
        (∀ e, QueuePut e ∉ new) ∧
        queue (create_lead w s).2 = queue s)) ∧
  (∀ n, ∃ new,
     trace (run_simulation n w s).2 = trace s ++ new ∧
     ∀ e, QueuePut e ∈ new → is_Some (Lead.id (ConversionEvent.lead e))).
Proof.
  split; [apply create_lead_puts|].
  intros n. revert s. induction n as [|n IH]; intros s.
  { exists []. split; [by rewrite app_nil_r|]. intros e He.
    by apply elem_of_nil in He. }
  destruct (create_lead_puts w s) as (new1 & Ht1 & Hput1 & _).
  cbn [run_simulation]. rewrite run_bind.
  destruct (create_lead w s) as [[[]|exn|] s1] eqn:Hrun; simpl in Ht1.
  - rewrite run_bind. unfold time_sleep. rewrite log_run.
    destruct (IH (add_trace (TimeSleep 0.01) s1)) as (new2 & Ht2 & Hput2).
    exists (new1 ++ TimeSleep 0.01 :: new2). split.
    + rewrite Ht2. simpl. rewrite Ht1, <- !app_assoc. done.
    + intros e [He|He]%elem_of_app.
      * destruct (Hput1 e He) as (i & _ & Hi). by rewrite Hi.
      * apply elem_of_cons in He as [?|He]; [done|]. by apply Hput2.
  - exists new1. split; [done|]. intros e He.
    destruct (Hput1 e He) as (i & _ & Hi). by rewrite Hi.
  - exists new1. split; [done|]. intros e He.
    destruct (Hput1 e He) as (i & _ & Hi). by rewrite Hi.
Qed.

(** ** The producer loop *)

(** C4 (as the code has it). When the INSERT returns no row, [create_lead]
    raises [RuntimeError] for that lead right after the INSERT, before any
    prediction, coupon or enqueue; [run_simulation] does not catch it, so the
    exception ends that iteration and the producer loop with it: the loop
    does not go on to a next iteration. *)
Theorem missing_row_ends_producer w s n :
  db_fetchone w (n_fetchone s) = None →
  ∃ lead s',
    create_lead w s = (Raised (RuntimeError lead), s') ∧
    Lead.id lead = None ∧
    trace s' = trace s ++
      [SqlInsertLead (Lead.email lead) (Lead.utm_medium lead)
                     (Lead.utm_source lead)] ∧
    queue s' = queue s ∧
    run_simulation (S n) w s = (Raised (RuntimeError lead), s').
Proof.
  intros Hrow.
  destruct (create_lead_no_row w s Hrow) as (lead & s' & Hrun & Hid & Ht & Hq).
  exists lead, s'. do 4 (split; [done|]).
  cbn [run_simulation]. by rewrite run_bind, Hrun.
Qed.

(** ** The random lead *)

Lemma length_append (a b : string) :
  String.length (a +:+ b) = String.length a + String.length b.
Proof. induction a as [|c a IH]; simpl; [done|]. by rewrite IH. Qed.

Lemma list_ascii_of_string_append (a b : string) :
  String.list_ascii_of_string (a +:+ b)
  = String.list_ascii_of_string a ++ String.list_ascii_of_string b.
Proof. induction a as [|c a IH]; simpl; [done|]. by rewrite IH. Qed.

Lemma random_letters_spec n : ∀ w s,
  ∃ letters,
    random_letters n w s = (Returned letters, skip_random n s) ∧
    String.length letters = n ∧
    Forall letter (String.list_ascii_of_string letters).
Proof.
  induction n as [|n IH]; intros w s; cbn [random_letters].
  - exists "". rewrite skip_random_0. split; [done|]. split; [done|constructor].
  - rewrite run_bind.
    destruct (random_choice_run (String.list_ascii_of_string ascii_letters) w s)
      as (c & Hc & ->); [done|].
    rewrite run_bind. destruct (IH w (tick_random s)) as (rest & -> & Hlen & Hl).
    exists (String c rest). split; [|split].
    + unfold mret, M_ret. f_equal.
      rewrite tick_random_skip, skip_skip_random. f_equal. lia.
    + simpl. by rewrite Hlen.
    + simpl. by constructor.
Qed.

(** Everything [rand_lead] does: it returns, with the parts of the lead it
    built and the number of values it took from the generator. *)
Lemma rand_lead_spec w s :
  ∃ name domain utm_medium sources utm_source,
    rand_lead w s
    = (Returned (Lead.mk (name +:+ "@" +:+ domain +:+ ".com")
                         utm_medium utm_source None),
       skip_random (String.length name + String.length domain + 4) s) ∧
    4 ≤ String.length name ≤ 20 ∧
    3 ≤ String.length domain ≤ 5 ∧
    Forall letter (String.list_ascii_of_string name) ∧
    Forall letter (String.list_ascii_of_string domain) ∧
    utm_medium ∈ ["email"; "social"; "organic"; "referral"] ∧
    medium_to_sources !! utm_medium = Some sources ∧
    utm_source ∈ sources.
Proof.
  unfold rand_lead.
  rewrite run_bind, random_randint_run by lia.
  pose proof (randint_range 4 20 (random_bits w (n_random s))) as Hn.
  set (n := (4 + randbelow_value _ _)%Z) in *.
  rewrite run_bind.
  destruct (random_letters_spec (Z.to_nat n) w (tick_random s))
    as (name & -> & Hname & Hnl).
  rewrite run_bind, random_randint_run by lia.
  match goal with |- context [randbelow_value (5 - 3 + 1) ?b] =>
    pose proof (randint_range 3 5 b) as Hm;
    set (m := (3 + randbelow_value (5 - 3 + 1) b)%Z) in * end.
  rewrite run_bind.
  match goal with |- context [random_letters (Z.to_nat m) w ?s1] =>
    destruct (random_letters_spec (Z.to_nat m) w s1)
      as (domain & -> & Hdomain & Hdl) end.
  rewrite run_bind.
  match goal with |- context [random_choice ?l w ?s1] =>
    destruct (random_choice_run l w s1) as (utm_medium & Hmed & ->); [done|] end.
  rewrite run_bind.
  assert (∃ sources, medium_to_sources !! utm_medium = Some sources ∧
                     sources ≠ []) as (sources & Hsrc & Hne).
  { pose proof Hmed as Hmed'.
    repeat (apply elem_of_cons in Hmed' as [->|Hmed'];
            [eexists; (split; [vm_compute; reflexivity|]); done|]).
    by apply elem_of_nil in Hmed'. }
  rewrite Hsrc. unfold mret at 1, M_ret at 1. rewrite run_bind.
  match goal with |- context [random_choice sources w ?s1] =>
    destruct (random_choice_run sources w s1) as (utm_source & Hs & ->);
      [done|] end.
  exists name, domain, utm_medium, sources, utm_source.
  split; [|repeat split; try done; lia].
  unfold mret, M_ret. f_equal.
  unfold tick_random, skip_random. simpl. f_equal. lia.
Qed.

(** X1. [rand_lead] always returns: it never raises.  The lead it returns
    has no identifier yet; its e-mail address is [name@domain.com], where
    [name] is made of 4 to 20 and [domain] of 3 to 5 ASCII letters, so that
    the address is 12 to 30 characters long; and the call takes
    [len(name) + len(domain) + 4] values from the random generator. *)
Theorem rand_lead_email_shape w s :
  ∃ name domain lead,
    rand_lead w s
    = (Returned lead,
       skip_random (String.length name + String.length domain + 4) s) ∧
    Lead.email lead = name +:+ "@" +:+ domain +:+ ".com" ∧
    Lead.id lead = None ∧
    4 ≤ String.length name ≤ 20 ∧
    3 ≤ String.length domain ≤ 5 ∧
    Forall letter (String.list_ascii_of_string name) ∧
    Forall letter (String.list_ascii_of_string domain) ∧
    12 ≤ String.length (Lead.email lead) ≤ 30.
Proof.
  destruct (rand_lead_spec w s)
    as (name & domain & utm_medium & sources & utm_source & Hrun & Hn & Hd
        & Hnl & Hdl & _).
  exists name, domain, (Lead.mk (name +:+ "@" +:+ domain +:+ ".com")
                                utm_medium utm_source None).
  do 7 (split; [done|]). simpl. rewrite !length_append. simpl. lia.
Qed.

(** X2. The [utm_medium] of a generated lead is one of "email", "social",
    "organic" and "referral"; the lookup [medium_to_sources[utm_medium]]
    never raises [KeyError]; and the [utm_source] is one of the sources
    listed for that medium (for "email" it is "klaviyo.com"). *)
Theorem rand_lead_source_of_medium w s :
  ∃ lead s' sources,
    rand_lead w s = (Returned lead, s') ∧
    Lead.utm_medium lead ∈ ["email"; "social"; "organic"; "referral"] ∧
    medium_to_sources !! Lead.utm_medium lead = Some sources ∧
    Lead.utm_source lead ∈ sources ∧
    (Lead.utm_medium lead = "email" → Lead.utm_source lead = "klaviyo.com").
Proof.
  destruct (rand_lead_spec w s)
    as (name & domain & utm_medium & sources & utm_source & Hrun & _ & _
        & _ & _ & Hmed & Hsrc & Hs).
  eexists _, _, sources. split; [exact Hrun|]. simpl.
  do 3 (split; [done|]). intros ->.
  vm_compute in Hsrc. simplify_eq. by apply list_elem_of_singleton in Hs.
Qed.

Lemma letter_plain c : letter c → plain c.
Proof. by left. Qed.

Lemma plain_no_apostrophe c : plain c → c ≠ "'"%char.
Proof.
  intros [Hc|[->| ->]]; [|done..]. intros ->. revert Hc. unfold letter.
  apply (bool_decide_unpack (_ ∉ _)). vm_compute. reflexivity.
Qed.

(** X3. Every character of the [email], the [utm_medium] and the
    [utm_source] of a generated lead is an ASCII letter, [@] or [.]; in
    particular none is an apostrophe, so the values cannot end the string
    literals of the INSERT statement into which they are interpolated. *)
Theorem rand_lead_plain_fields w s :
  ∃ lead s',
    rand_lead w s = (Returned lead, s') ∧
    Forall (λ field : string,
              Forall plain (String.list_ascii_of_string field) ∧
              "'"%char ∉ String.list_ascii_of_string field)
      [Lead.email lead; Lead.utm_medium lead; Lead.utm_source lead].
Proof.
  destruct (rand_lead_spec w s)
    as (name & domain & utm_medium & sources & utm_source & Hrun & _ & _
        & Hnl & Hdl & Hmed & Hsrc & Hs).
  eexists _, _. split; [exact Hrun|]. simpl.
  assert (∀ field, Forall plain (String.list_ascii_of_string field) →
                   Forall plain (String.list_ascii_of_string field) ∧
                   "'"%char ∉ String.list_ascii_of_string field) as Hok.
  { intros field Hf. split; [done|]. intros Hin.
    rewrite Forall_forall in Hf. by apply (plain_no_apostrophe _ (Hf _ Hin)). }
  assert (∀ field : string,
            field ∈ ["email"; "social"; "organic"; "referral"; "klaviyo.com";
                     "facebook.com"; "twitter.com"; "instagram.com"; "none";
                     "google.com"; "hackernews.com"; "reddit.com"] →
            Forall plain (String.list_ascii_of_string field)) as Hconst.
  { intros field Hf.
    repeat (apply elem_of_cons in Hf as [->|Hf];
            [apply Forall_forall; intros c Hc; simpl in Hc;
             repeat (apply elem_of_cons in Hc as [->|Hc];
                     [first [ right; right; reflexivity
                            | left; apply (bool_decide_unpack (_ ∈ _));
                              vm_compute; reflexivity ]|]);
             by apply elem_of_nil in Hc|]).
    by apply elem_of_nil in Hf. }
  constructor; [apply Hok|constructor; [apply Hok|constructor; [apply Hok|constructor]]].
  - rewrite !list_ascii_of_string_append. simpl.
    apply Forall_app. split; [eapply Forall_impl; [exact Hnl|apply letter_plain]|].
    constructor; [right; by left|].
    apply Forall_app. split; [eapply Forall_impl; [exact Hdl|apply letter_plain]|].
    repeat constructor; first [ right; right; reflexivity
                              | left; apply (bool_decide_unpack (_ ∈ _));
                                vm_compute; reflexivity ].
  - apply Hconst.
    repeat (apply elem_of_cons in Hmed as [->|Hmed]; [apply (bool_decide_unpack (_ ∈ _)); vm_compute; reflexivity|]).
    by apply elem_of_nil in Hmed.
  - apply Hconst.
    repeat (apply elem_of_cons in Hmed as [->|Hmed];
            [vm_compute in Hsrc; simplify_eq;
             repeat (apply elem_of_cons in Hs as [->|Hs];
                     [apply (bool_decide_unpack (_ ∈ _)); vm_compute;
                      reflexivity|]);
             by apply elem_of_nil in Hs|]).
    by apply elem_of_nil in Hmed.
Qed.

(** ** The lead pipeline, call by call *)

(** What the second part of [create_lead] calls. *)
Lemma create_lead_convert_calls lead score sent_coupon w s :
  ∃ s' enqueue,
    create_lead_convert lead score sent_coupon w s = (Returned tt, s') ∧
    trace s' = trace s ++ enqueue ∧
    (enqueue = [] ∨
     ∃ now event,
       enqueue = [TimeTime now; QueuePut event] ∧
       ConversionEvent.lead event = lead ∧
       (round64 now <= ConversionEvent.converted_at event
        <= round64 (now + 30))%Q ∧
       (1000 ≤ ConversionEvent.conversion_amount event ≤ 25000)%Z) ∧
    n_fetchone s' = n_fetchone s ∧
    (is_heap (queue s) → is_heap (queue s')).
Proof.
  pose proof (create_lead_convert_run lead score sent_coupon w s) as Hrun.
  cbv zeta in Hrun.
  destruct (sent_coupon && negb _);
    match type of Hrun with if ?b then _ else _ => destruct b end.
  all: try (rewrite Hrun; eexists _, []; rewrite app_nil_r;
            split; [done|]; split; [done|]; split; [by left|]; done).
  all: destruct Hrun as (queue' & Hput & _ & ->).
  all: eexists _, [TimeTime _; QueuePut _]; split; [done|].
  all: split; [simpl; by rewrite <- app_assoc|].
  all: split; [|split; [done|]; intros Hq; simpl;
                 eapply put_is_heap; [|exact Hput];
                 by apply apply_ops_is_heap].
  all: right; eexists _, _; split; [done|]; split; [done|]; simpl.
  all: split; [|apply (randint_range 1000 25000); lia].
  all: apply fire_time_range, random_value_range.
Qed.

(** What a call of [create_lead] does when the INSERT returns a row. *)
Lemma create_lead_row w s i :
  db_fetchone w (n_fetchone s) = Some i →
  ∃ s' calls,
    create_lead w s = (Returned tt, s') ∧
    trace s' = trace s ++ calls ∧
    lead_calls i calls ∧
    n_fetchone s' = S (n_fetchone s) ∧
    (is_heap (queue s) → is_heap (queue s')).
Proof.
  intros Hrow. unfold create_lead. rewrite run_bind.
  destruct (create_lead_predict_run w s) as (lead0 & k & _ & _ & ->).
  cbv zeta. rewrite Hrow.
  set (lead := Lead.mk _ _ _ (Some i)).
  set (score := random_value _).
  set (label := (if Qltb 0.5 score then 1 else 0)%Z).
  set (record := Prediction.mk _ _ _ _ _).
  destruct (bool_decide (label = 0%Z) && bool_decide _) eqn:Hc.
  - apply andb_true_iff in Hc
      as [Hl%bool_decide_eq_true Hb%bool_decide_eq_true].
    apply experiment_bucket_not_control in Hb.
    match goal with |- context [create_lead_convert lead score true w ?s1] =>
      destruct (create_lead_convert_calls lead score true w s1)
        as (s' & enqueue & -> & Ht & Henq & Hf & Hheap) end.
    eexists s', (_ :: _ :: [_] ++ enqueue). split; [done|]. split.
    { rewrite Ht. simpl. rewrite <- !app_assoc. done. }
    split; [|split; [done|exact Hheap]].
    eexists lead, record, [SqlInsertCoupon (Some i) _], enqueue.
    split; [done|]. do 3 (split; [done|]).
    split; [apply random_value_range|]. split; [done|].
    split; [|done]. rewrite bool_decide_eq_true_2 by done.
    eexists. split; [|done]. apply (randint_range 500 5000). lia.
  - match goal with |- context [create_lead_convert lead score false w ?s1] =>
      destruct (create_lead_convert_calls lead score false w s1)
        as (s' & enqueue & -> & Ht & Henq & Hf & Hheap) end.
    eexists s', (_ :: _ :: [] ++ enqueue). split; [done|]. split.
    { rewrite Ht. simpl. rewrite <- !app_assoc. done. }
    split; [|split; [done|exact Hheap]].
    exists lead, record, [], enqueue.
    split; [done|]. do 3 (split; [done|]).
    split; [apply random_value_range|]. split; [done|].
    split; [|done]. rewrite bool_decide_eq_false_2; [done|].
    intros [Hl Hb]. simpl in Hl, Hb.
    apply andb_false_iff in Hc
      as [Hc%bool_decide_eq_false|Hc%bool_decide_eq_false]; [done|].
    by apply Hc, experiment_bucket_not_control.
Qed.

(** X4. When the INSERT returns a row with the identifier [i],
    [create_lead] returns normally, and its calls are, in this order: the
    INSERT of the lead; the send of one prediction record for lead [i] with
    the bucket of [i], a score in [[0, 1)] and the label [int(score > 0.5)];
    a coupon INSERT for lead [i] with an amount of 500 to 5000, exactly when
    the label is 0 and the bucket is "experiment"; and, when the lead
    converts, a reading [now] of the clock followed by the put of one event
    that carries this lead, a fire time between [now] and [now + 30], both
    as doubles and both ends included, and an amount of 1000 to 25000. *)
Theorem create_lead_call_order w s i :
  db_fetchone w (n_fetchone s) = Some i →
  ∃ s' calls,
    create_lead w s = (Returned tt, s') ∧
    trace s' = trace s ++ calls ∧
    lead_calls i calls.
Proof.
  intros Hrow.
  destruct (create_lead_row w s i Hrow) as (s' & calls & ? & ? & ? & _).
  by exists s', calls.
Qed.

Lemma lead_calls_ok i calls : lead_calls i calls → Forall producer_call_ok calls.
Proof.
  intros (lead & record & coupon & enqueue & -> & Hid & Hrid & Hb & Hscore
          & Hlabel & Hcoupon & Henq).
  constructor; [done|]. constructor.
  { split; [done|]. split; [done|]. split; [|by exists i].
    rewrite Hlabel. destruct (Qltb _ _); auto. }
  apply Forall_app. split.
  - destruct (bool_decide _) eqn:Hc.
    + apply bool_decide_eq_true in Hc as [_ Hc].
      destruct Hcoupon as (amount & Ha & ->).
      constructor; [|constructor]. split; [done|]. exists i. split; [done|].
      unfold experiment_bucket in Hc.
      destruct (Z.leb_spec (i mod 10) 1); [done|lia].
    + subst coupon. constructor.
  - destruct Henq as [->|(now & event & -> & Hlead & _ & Ha)]; [constructor|].
    constructor; [done|]. constructor; [|constructor].
    split; [done|]. rewrite Hlead, Hid. by eexists.
Qed.

Lemma create_lead_calls_ok w s :
  ∃ new, trace (create_lead w s).2 = trace s ++ new ∧
         Forall producer_call_ok new.
Proof.
  destruct (db_fetchone w (n_fetchone s)) as [i|] eqn:Hrow.
  - destruct (create_lead_row w s i Hrow) as (s' & calls & -> & Ht & Hc & _).
    exists calls. split; [done|]. by eapply lead_calls_ok.
  - destruct (create_lead_no_row w s Hrow) as (lead & s' & -> & _ & Ht & _).
    eexists. split; [exact Ht|]. by constructor.
Qed.

(** X5. Whatever the database, the generator, the clock and the other
    thread do, and for any number of turns, every call of the producer loop
    is one of: the INSERT of a lead; a send to the topic
    "conversion_predictions" with a score in [[0, 1)], a label 0 or 1, the
    identifier of a lead and the bucket of that identifier; a coupon INSERT
    with an amount of 500 to 5000 for a lead whose identifier has
    [id % 10 >= 2], hence never for a lead of the control group; a reading
    of the clock; the put of an event with an amount of 1000 to 25000 whose
    lead has an identifier; a sleep of 0.01 s.  The producer never takes
    from the queue and never issues the conversion UPDATE. *)
Theorem producer_calls_in_range n : ∀ w s,
  ∃ new, trace (run_simulation n w s).2 = trace s ++ new ∧
         Forall producer_call_ok new.
Proof.
  induction n as [|n IH]; intros w s.
  { exists []. by rewrite app_nil_r. }
  destruct (create_lead_calls_ok w s) as (new1 & Ht1 & Hok1).
  cbn [run_simulation]. rewrite run_bind.
  destruct (create_lead w s) as [[[]|exn|] s1]; simpl in Ht1.
  - rewrite run_bind. unfold time_sleep. rewrite log_run.
    destruct (IH w (add_trace (TimeSleep 0.01) s1)) as (new2 & Ht2 & Hok2).
    exists (new1 ++ TimeSleep 0.01 :: new2). split.
    + rewrite Ht2. simpl. rewrite Ht1, <- !app_assoc. done.
    + apply Forall_app. split; [done|]. by constructor.
  - by exists new1.
  - by exists new1.
Qed.

(** The first [k] turns of the producer loop when the database has a row
    for each of them. *)
Lemma run_simulation_turns k : ∀ n w s,
  (∀ j, j < k → is_Some (db_fetchone w (n_fetchone s + j))) →
  ∃ s1 turns,
    run_simulation (k + n) w s = run_simulation n w s1 ∧
    trace s1 = trace s ++ concat turns ∧
    n_fetchone s1 = n_fetchone s + k ∧
    Forall2 (producer_turn w (n_fetchone s)) (seq 0 k) turns ∧
    (is_heap (queue s) → is_heap (queue s1)).
Proof.
  induction k as [|k IH]; intros n w s Hrows.
  { exists s, []. simpl. rewrite app_nil_r, Nat.add_0_r.
    repeat split; (done || constructor). }
  destruct (Hrows 0) as [i Hi]; [lia|]. rewrite Nat.add_0_r in Hi.
  destruct (create_lead_row w s i Hi)
    as (s' & calls & Hrun & Ht & Hcalls & Hf & Hheap).
  cbn [Nat.add run_simulation]. rewrite run_bind, Hrun, run_bind.
  unfold time_sleep. rewrite log_run.
  destruct (IH n w (add_trace (TimeSleep 0.01) s'))
    as (s1 & turns & Hrun1 & Ht1 & Hf1 & Hall & Hheap1).
  { intros j Hj. simpl. rewrite Hf.
    replace (S (n_fetchone s) + j) with (n_fetchone s + S j) by lia.
    apply Hrows. lia. }
  exists s1, ((calls ++ [TimeSleep 0.01%Q]) :: turns).
  split; [done|]. split.
  { rewrite Ht1. simpl. rewrite Ht, <- !app_assoc. done. }
  split; [simpl in Hf1; lia|]. split; [|auto].
  simpl. constructor.
  - exists i, calls. by rewrite Nat.add_0_r.
  - rewrite <- fmap_S_seq. apply Forall2_fmap_l.
    eapply Forall2_impl; [exact Hall|].
    intros j turn (i' & calls' & Hi' & ? & ?). exists i', calls'.
    split; [|done]. simpl in Hi'. rewrite Hf in Hi'. rewrite <- Hi'.
    f_equal. lia.
Qed.

(** X6. If the database returns a row for each of the next [n] INSERTs,
    [n] turns of the producer loop complete: the [j]-th turn consists of the
    calls of [create_lead] for the [j]-th row followed by a sleep of 0.01 s,
    and exactly [n] rows have been fetched. *)
Theorem run_simulation_all_rows n w s :
  (∀ j, j < n → is_Some (db_fetchone w (n_fetchone s + j))) →
  ∃ s' turns,
    run_simulation n w s = (Returned tt, s') ∧
    trace s' = trace s ++ concat turns ∧
    n_fetchone s' = n_fetchone s + n ∧
    Forall2 (producer_turn w (n_fetchone s)) (seq 0 n) turns.
Proof.
  intros Hrows.
  destruct (run_simulation_turns n 0 w s Hrows)
    as (s1 & turns & Hrun & Ht & Hf & Hall & _).
  rewrite Nat.add_0_r in Hrun. by exists s1, turns.
Qed.

(** X7. If the next [k] INSERTs return a row and the one after them
    returns none, a run of more than [k] turns of the producer loop ends
    with the [RuntimeError] of the [k+1]-th lead: [k] complete turns, then
    the INSERT of that lead and nothing after it; [k + 1] rows have been
    fetched. *)
Theorem run_simulation_first_missing_row n k w s :
  k < n →
  (∀ j, j < k → is_Some (db_fetchone w (n_fetchone s + j))) →
  db_fetchone w (n_fetchone s + k) = None →
  ∃ lead s' turns,
    run_simulation n w s = (Raised (RuntimeError lead), s') ∧
    Lead.id lead = None ∧
    trace s' = trace s ++ concat turns ++
      [SqlInsertLead (Lead.email lead) (Lead.utm_medium lead)
                     (Lead.utm_source lead)] ∧
    n_fetchone s' = n_fetchone s + k + 1 ∧
    Forall2 (producer_turn w (n_fetchone s)) (seq 0 k) turns.
Proof.
  intros Hk Hrows Hnone.
  destruct (run_simulation_turns k (n - k) w s Hrows)
    as (s1 & turns & Hrun & Ht & Hf & Hall & _).
  replace (k + (n - k)) with n in Hrun by lia.
  destruct (n - k) as [|m] eqn:Hm; [lia|].
  rewrite <- Hf in Hnone.
  destruct (create_lead_no_row w s1 Hnone)
    as (lead & s' & Hrun' & Hid & Ht' & _).
  exists lead, s', turns. split.
  { rewrite Hrun. cbn [run_simulation]. by rewrite run_bind, Hrun'. }
  split; [done|]. split; [by rewrite Ht', Ht, <- app_assoc|].
  split; [|done].
  pose proof (create_lead_predict_run w s1) as (l0 & k0 & _ & _ & Hp).
  cbv zeta in Hp. rewrite Hnone in Hp.
  unfold create_lead in Hrun'. rewrite run_bind, Hp in Hrun'.
  simplify_eq. simpl. lia.
Qed.

(** ** The consumer loop, turn by turn *)

(** The three ways a turn of the loop can go. *)
Lemma convert_iteration_cases w s :
  (queue_now w s = [] ∧ convert_iteration w s = (Blocked, s)) ∨
  ∃ e q1 s',
    PriorityQueue._get (queue_now w s) = Some (e, q1) ∧
    queue_now w s ≡ₚ e :: q1 ∧
    convert_iteration w s = (Returned tt, s') ∧
    let now := wall_clock w (n_clock s) in
    let pending := apply_ops q1 (other_thread w (S (n_queue s))) in
    (((PERIOD < ConversionEvent.converted_at e - now)%Q ∧
      PriorityQueue._put pending e = Some (queue s') ∧
      queue s' ≡ₚ e :: pending ∧
      trace s' = trace s ++
        [QueueGet e; TimeTime now; QueuePut e; TimeSleep PERIOD] ∧
      n_queue s' = S (S (n_queue s)))
     ∨
     ((ConversionEvent.converted_at e <= now + PERIOD)%Q ∧
      queue s' = q1 ∧
      trace s' = trace s ++
        [QueueGet e; TimeTime now; TimeTime (wall_clock w (S (n_clock s)));
         SqlUpdateConversion (ConversionEvent.conversion_amount e)
                             (Lead.id (ConversionEvent.lead e))] ∧
      n_queue s' = S (n_queue s))).
Proof.
  destruct (queue_get_run w s) as [[Hq Hb]|(e & q1 & Hget & Hperm & Hrun)].
  { left. split; [done|]. unfold convert_iteration. by rewrite run_bind, Hb. }
  right. destruct (convert_iteration_run w s _ _ Hrun) as [_ Hit].
  cbv zeta in Hit.
  change (n_clock (add_trace (QueueGet e) (tick_queue q1 s)))
    with (n_clock s) in Hit.
  destruct (Qltb PERIOD _) eqn:Hlt.
  - destruct Hit as (queue' & Hput & Hperm' & Hit).
    exists e, q1. eexists. split; [done|]. split; [done|].
    split; [exact Hit|]. left. apply Qltb_lt in Hlt.
    split; [done|]. split; [exact Hput|]. split; [exact Hperm'|].
    split; [|done]. simpl. by rewrite <- !app_assoc.
  - exists e, q1. eexists. split; [done|]. split; [done|].
    split; [exact Hit|]. right. apply Qltb_ge in Hlt.
    split; [lra|]. split; [done|]. split; [|done].
    simpl. by rewrite <- !app_assoc.
Qed.

Lemma create_lead_keeps_heap w s :
  is_heap (queue s) → is_heap (queue (create_lead w s).2).
Proof.
  intros Hq. destruct (db_fetchone w (n_fetchone s)) as [i|] eqn:Hrow.
  - destruct (create_lead_row w s i Hrow) as (s' & calls & -> & _ & _ & _ & H).
    by apply H.
  - destruct (create_lead_no_row w s Hrow) as (lead & s' & -> & _ & _ & Hs).
    simpl. by rewrite Hs.
Qed.

Lemma convert_iteration_keeps_heap w s :
  is_heap (queue s) → is_heap (queue (convert_iteration w s).2).
Proof.
  intros Hq.
  destruct (convert_iteration_cases w s)
    as [[_ ->]|(e & q1 & s' & Hget & _ & -> & Hcases)]; [done|].
  assert (is_heap q1) as Hq1.
  { eapply get_is_heap; [|exact Hget]. by apply apply_ops_is_heap. }
  cbv zeta in Hcases. simpl.
  destruct Hcases as [(_ & Hput & _)|(_ & -> & _)]; [|done].
  eapply put_is_heap; [|exact Hput]. by apply apply_ops_is_heap.
Qed.

(** X8. Both loops keep the list of the queue a heap for the order of
    the conversion events, for any number of turns and whatever queue
    operations the other thread makes in between. *)
Theorem loops_keep_heap n w s :
  is_heap (queue s) →
  is_heap (queue (run_simulation n w s).2) ∧
  is_heap (queue (convert n w s).2).
Proof.
  intros Hq. split.
  - revert s Hq. induction n as [|n IH]; intros s Hq; [done|].
    cbn [run_simulation]. rewrite run_bind.
    pose proof (create_lead_keeps_heap w s Hq) as Hq1.
    destruct (create_lead w s) as [[[]|exn|] s1]; [|done..].
    rewrite run_bind. unfold time_sleep. rewrite log_run. by apply IH.
  - revert s Hq. induction n as [|n IH]; intros s Hq; [done|].
    cbn [convert]. rewrite run_bind.
    pose proof (convert_iteration_keeps_heap w s Hq) as Hq1.
    destruct (convert_iteration w s) as [[[]|exn|] s1]; [|done..].
    by apply IH.
Qed.

(** X9. A turn of the consumer loop waits in [queue.get()] exactly when
    it finds the queue empty.  On an empty queue the loop makes no call at
    all (no reading of the clock, no sleep, no UPDATE) and leaves its state
    as it is; on a non-empty queue the turn completes, and it makes
    calls. *)
Theorem convert_waits_iff_empty w s :
  match queue_now w s with
  | [] => ∀ n, convert (S n) w s = (Blocked, s)
  | _ :: _ =>
      ∃ s', convert_iteration w s = (Returned tt, s') ∧
            n_queue s < n_queue s' ∧ trace s' ≠ trace s
  end.
Proof.
  destruct (convert_iteration_cases w s)
    as [[Hq Hb]|(e & q1 & s' & Hget & Hperm & Hrun & Hcases)].
  - rewrite Hq. intros n. cbn [convert]. by rewrite run_bind, Hb.
  - destruct (queue_now w s) as [|x t] eqn:Hq.
    { by apply Permutation_nil_cons in Hperm. }
    exists s'. split; [done|].
    destruct Hcases as [(_ & _ & _ & -> & ->)|(_ & _ & -> & ->)].
    + split; [lia|]. intros H. apply (f_equal length) in H.
      rewrite length_app in H. simpl in H. lia.
    + split; [lia|]. intros H. apply (f_equal length) in H.
      rewrite length_app in H. simpl in H. lia.
Qed.

Lemma silent_queue_now w s :
  (∀ k, other_thread w k = []) → queue_now w s = queue s.
Proof. intros Hsilent. unfold queue_now. by rewrite Hsilent. Qed.

(** X10. With no concurrent operation of the other thread and a queue
    that is a heap, the consumer loop takes events in nondecreasing order of
    fire time, every event it takes was in the queue at the start, and the
    UPDATEs it issues are, in the same order, those of some of the events
    taken: conversions are logged by ascending fire time. *)
Theorem convert_takes_in_time_order n : ∀ w s,
  (∀ k, other_thread w k = []) →
  is_heap (queue s) →
  ∃ new,
    trace (convert n w s).2 = trace s ++ new ∧
    StronglySorted fires_first (taken new) ∧
    Forall (λ x, x ∈ queue s) (taken new) ∧
    sublist (updates new) (conversion_of <$> taken new).
Proof.
  induction n as [|n IH]; intros w s Hsilent Hq.
  { exists []. simpl. rewrite app_nil_r. repeat split; constructor. }
  cbn [convert]. rewrite run_bind.
  destruct (convert_iteration_cases w s)
    as [[_ ->]|(e & q1 & s' & Hget & Hperm & -> & Hcases)].
  { exists []. simpl. rewrite app_nil_r. repeat split; constructor. }
  rewrite silent_queue_now in Hget, Hperm by done.
  cbv zeta in Hcases. rewrite Hsilent in Hcases. simpl in Hcases.
  destruct (get_is_heap _ _ _ Hq Hget) as [Hq1 Hmin].
  assert (Forall (fires_first e) (e :: q1)) as Hmin'.
  { constructor; [apply Qle_refl|done]. }
  assert (is_heap (queue s') ∧ ∀ x, x ∈ queue s' → x ∈ e :: q1)
    as [Hq' Hsub].
  { destruct Hcases as [(_ & Hput & Hp & _)|(_ & -> & _)].
    - split; [by eapply put_is_heap|]. intros x Hx. by rewrite Hp in Hx.
    - split; [done|]. intros x Hx. by right. }
  destruct (IH w s' Hsilent Hq') as (new1 & Ht1 & Hs1 & Hin1 & Hsub1).
  assert (Forall (λ x, x ∈ e :: q1) (taken new1)) as Hin1'.
  { eapply Forall_impl; [exact Hin1|]. intros x. apply Hsub. }
  assert (StronglySorted fires_first (e :: taken new1)) as Hsorted.
  { constructor; [done|]. eapply Forall_impl; [exact Hin1'|].
    intros x Hx. rewrite Forall_forall in Hmin'. by apply Hmin'. }
  assert (Forall (λ x, x ∈ queue s) (e :: taken new1)) as Hin.
  { constructor; [rewrite Hperm; by left|].
    eapply Forall_impl; [exact Hin1'|]. intros x Hx. by rewrite Hperm. }
  destruct Hcases as [(_ & _ & _ & Ht & _)|(_ & _ & Ht & _)].
  - exists ([QueueGet e; TimeTime (wall_clock w (n_clock s)); QueuePut e;
             TimeSleep PERIOD] ++ new1).
    split; [by rewrite Ht1, Ht, <- app_assoc|].
    split; [done|]. split; [done|]. simpl. by apply sublist_cons.
  - exists ([QueueGet e; TimeTime (wall_clock w (n_clock s));
             TimeTime (wall_clock w (S (n_clock s)));
             SqlUpdateConversion (ConversionEvent.conversion_amount e)
                                 (Lead.id (ConversionEvent.lead e))] ++ new1).
    split; [by rewrite Ht1, Ht, <- app_assoc|].
    split; [done|]. split; [done|]. simpl. by apply sublist_skip.
Qed.

(** ** Backlogs, identifiers and conservation of events *)

Lemma drain_cons queue e queue' :
  PriorityQueue._get queue = Some (e, queue') →
  queue ≡ₚ e :: queue' →
  PriorityQueue.drain queue = e :: PriorityQueue.drain queue'.
Proof.
  intros Hget Hperm. unfold PriorityQueue.drain.
  apply Permutation_length in Hperm as Hlen. simpl in Hlen.
  rewrite Hlen. cbn [heapq.drain]. unfold PriorityQueue._get in Hget.
  by rewrite Hget.
Qed.

(** X11. If the other thread is silent and every event of the queue is
    due at every reading of the clock (its fire time is at most [PERIOD]
    ahead), then as many turns as the queue has events finalize them all, in
    the order in which the queue hands them out: one UPDATE per event, no
    event put back, no sleep; the queue is empty afterwards and the next
    turn waits. *)
Theorem convert_flushes_due_backlog w s :
  (∀ k, other_thread w k = []) →
  (∀ e k, e ∈ queue s →
     (ConversionEvent.converted_at e <= wall_clock w k + PERIOD)%Q) →
  ∃ s' new,
    convert (length (queue s)) w s = (Returned tt, s') ∧
    trace s' = trace s ++ new ∧
    queue s' = [] ∧
    taken new = PriorityQueue.drain (queue s) ∧
    updates new = conversion_of <$> PriorityQueue.drain (queue s) ∧
    enqueued new = [] ∧
    (∀ seconds, TimeSleep seconds ∉ new) ∧
    convert_iteration w s' = (Blocked, s').
Proof.
  intros Hsilent. remember (length (queue s)) as n eqn:Hn.
  revert s Hn. induction n as [|n IH]; intros s Hn Hdue.
  { destruct (queue s) as [|x t] eqn:Hq; [|done].
    exists s, []. simpl. rewrite app_nil_r. do 6 (split; [done|]).
    split; [intros seconds H; by apply elem_of_nil in H|].
    destruct (convert_iteration_cases w s)
      as [[_ Hb]|(e & q1 & s' & _ & Hperm & _)]; [done|].
    rewrite silent_queue_now, Hq in Hperm by done.
    by apply Permutation_nil_cons in Hperm. }
  cbn [convert]. rewrite run_bind.
  destruct (convert_iteration_cases w s)
    as [[Hq _]|(e & q1 & s' & Hget & Hperm & -> & Hcases)].
  { rewrite silent_queue_now in Hq by done. by rewrite Hq in Hn. }
  rewrite silent_queue_now in Hget, Hperm by done.
  cbv zeta in Hcases.
  destruct Hcases as [(Hslack & _)|(_ & Hq' & Ht & _)].
  { pose proof (Hdue e (n_clock s)) as He.
    assert (e ∈ queue s) as Hin by (rewrite Hperm; by left).
    apply He in Hin. lra. }
  destruct (IH s') as (s'' & new1 & -> & Ht1 & Hq1 & Htk & Hup & Hpb & Hsl & Hb).
  { rewrite Hq'. apply Permutation_length in Hperm. simpl in Hperm. lia. }
  { intros x k Hx. apply Hdue. rewrite Hperm. right. by rewrite <- Hq'. }
  rewrite (drain_cons _ _ _ Hget Hperm). rewrite Hq' in Htk, Hup.
  eexists s'', (_ ++ new1). split; [done|].
  split; [by rewrite Ht1, Ht, <- app_assoc|]. split; [done|].
  split; [simpl; by f_equal|]. split; [simpl; by f_equal|].
  split; [done|]. split; [|done].
  intros seconds H. repeat (apply elem_of_cons in H as [?|H]; [done|]).
  by apply Hsl in H.
Qed.

Lemma apply_ops_Forall (P : ConversionEvent → Prop) ops : ∀ queue,
  Forall P queue →
  Forall (λ op, match op with Put e => P e | Get => True end) ops →
  Forall P (apply_ops queue ops).
Proof.
  induction ops as [|op ops IH]; intros queue Hq Hops; [done|].
  apply Forall_cons in Hops as [Hop Hops]. apply IH; [|done].
  destruct op as [item|]; simpl.
  - destruct (put_total queue item) as (queue' & -> & Hperm). simpl.
    rewrite Hperm. by constructor.
  - destruct queue as [|x t]; [done|].
    destruct (get_total (x :: t)) as (item & queue' & -> & Hperm); [done|].
    simpl. rewrite Hperm in Hq. by apply Forall_cons in Hq as [_ ?].
Qed.

(** Whatever holds of the events in the queue and of the events that the
    other thread inserts holds of the events that the loop takes; the
    UPDATEs are those of some of the events taken, in the same order. *)
Lemma convert_taken_Forall (P : ConversionEvent → Prop) n : ∀ w s,
  Forall P (queue s) →
  (∀ k, Forall (λ op, match op with Put e => P e | Get => True end)
               (other_thread w k)) →
  ∃ new,
    trace (convert n w s).2 = trace s ++ new ∧
    Forall P (taken new) ∧
    sublist (updates new) (conversion_of <$> taken new).
Proof.
  induction n as [|n IH]; intros w s Hq Hother.
  { exists []. simpl. rewrite app_nil_r. repeat split; constructor. }
  cbn [convert]. rewrite run_bind.
  destruct (convert_iteration_cases w s)
    as [[_ ->]|(e & q1 & s' & _ & Hperm & -> & Hcases)].
  { exists []. simpl. rewrite app_nil_r. repeat split; constructor. }
  assert (Forall P (e :: q1)) as [He Hq1]%Forall_cons.
  { rewrite <- Hperm. by apply apply_ops_Forall. }
  cbv zeta in Hcases.
  assert (Forall P (queue s')) as Hq'.
  { destruct Hcases as [(_ & _ & -> & _)|(_ & -> & _)]; [|done].
    constructor; [done|]. by apply apply_ops_Forall. }
  destruct (IH w s' Hq' Hother) as (new1 & Ht1 & Htk & Hup).
  destruct Hcases as [(_ & _ & _ & Ht & _)|(_ & _ & Ht & _)].
  - eexists (_ ++ new1). split; [by rewrite Ht1, Ht, <- app_assoc|].
    simpl. split; [by constructor|]. by apply sublist_cons.
  - eexists (_ ++ new1). split; [by rewrite Ht1, Ht, <- app_assoc|].
    simpl. split; [by constructor|]. by apply sublist_skip.
Qed.

Lemma updates_of_taken_have_ids new :
  Forall has_id (taken new) →
  sublist (updates new) (conversion_of <$> taken new) →
  Forall (λ update : Z * option Z, is_Some update.2) (updates new).
Proof.
  intros Htk Hsub. apply Forall_forall. intros update Hu.
  apply (sublist_subseteq _ _ Hsub), list_elem_of_fmap in Hu
    as (e & -> & He).
  rewrite Forall_forall in Htk. by apply Htk.
Qed.

(** X12. If the lead of every event in the queue, and of every event
    that the other thread inserts, has an identifier, then every UPDATE that
    the consumer loop issues names an identifier: [WHERE id = None] is never
    sent. *)
Theorem convert_updates_have_ids n w s :
  Forall has_id (queue s) →
  (∀ k, Forall (λ op, match op with Put e => has_id e | Get => True end)
               (other_thread w k)) →
  ∃ new,
    trace (convert n w s).2 = trace s ++ new ∧
    Forall (λ update, is_Some update.2) (updates new).
Proof.
  intros Hq Hother.
  destruct (convert_taken_Forall has_id n w s Hq Hother)
    as (new & Ht & Htk & Hsub).
  exists new. split; [done|]. by apply updates_of_taken_have_ids.
Qed.

Lemma apply_ops_puts events : ∀ queue,
  apply_ops queue (Put <$> events) ≡ₚ queue ++ events.
Proof.
  induction events as [|e events IH]; intros queue; simpl.
  { by rewrite app_nil_r. }
  destruct (put_total queue e) as (queue' & -> & Hperm). simpl.
  rewrite IH, Hperm. simpl. by rewrite Permutation_middle.
Qed.

(** X13. Events put on an empty queue, in any order, are handed out by
    ascending fire time, and what is handed out is, up to the order, exactly
    what was put. *)
Theorem queue_hands_out_by_fire_time (events : list ConversionEvent) :
  let queue := apply_ops [] (Put <$> events) in
  PriorityQueue.drain queue ≡ₚ events ∧
  StronglySorted fires_first (PriorityQueue.drain queue).
Proof.
  intros queue.
  destruct (drain_sorted queue) as [Hperm Hsorted].
  { apply apply_ops_is_heap, is_heap_nil. }
  split; [|done]. rewrite Hperm. unfold queue. by rewrite apply_ops_puts.
Qed.

(** X14. Put, then get, on a queue that is a heap: the event returned
    fires no later than the event put, no event is lost or duplicated, and
    the queue is a heap again.  If the event put fires strictly before all
    the others, it is the one returned, and the queue holds the same events
    as before. *)
Theorem put_then_get queue e :
  is_heap queue →
  ∃ queue1 x queue2,
    PriorityQueue._put queue e = Some queue1 ∧
    PriorityQueue._get queue1 = Some (x, queue2) ∧
    fires_first x e ∧
    e :: queue ≡ₚ x :: queue2 ∧
    is_heap queue2 ∧
    (Forall (λ y, earlier_than y e) queue → x = e ∧ queue2 ≡ₚ queue).
Proof.
  intros Hq.
  destruct (put_total queue e) as (queue1 & Hput & Hperm1).
  pose proof (put_is_heap _ _ _ Hq Hput) as Hq1.
  destruct (get_total queue1) as (x & queue2 & Hget & Hperm2).
  { intros ->. by apply Permutation_nil_cons in Hperm1. }
  destruct (get_is_heap _ _ _ Hq1 Hget) as [Hq2 Hmin].
  assert (Forall (fires_first x) (e :: queue)) as Hall.
  { rewrite <- Hperm1, Hperm2. constructor; [apply Qle_refl|done]. }
  exists queue1, x, queue2. do 2 (split; [done|]).
  split; [by apply Forall_cons in Hall as [? _]|].
  split; [by rewrite <- Hperm1|]. split; [done|].
  intros Hlater.
  assert (x = e) as ->.
  { assert (x ∈ e :: queue) as [->|Hx]%elem_of_cons
      by (rewrite <- Hperm1, Hperm2; by left); [done|].
    rewrite Forall_forall in Hlater. apply Hlater in Hx.
    apply Forall_cons in Hall as [Hxe _].
    unfold earlier_than, fires_first in *. lra. }
  split; [done|]. apply (Permutation_cons_inv (a:=e)).
  by rewrite <- Hperm2, Hperm1.
Qed.

Lemma apply_ops_only_puts ops : ∀ queue,
  Forall (λ op, op ≠ Get) ops →
  apply_ops queue ops ≡ₚ queue ++ puts_of ops.
Proof.
  induction ops as [|op ops IH]; intros queue Hops; simpl.
  { by rewrite app_nil_r. }
  apply Forall_cons in Hops as [Hop Hops]. destruct op as [e|]; [|done].
  simpl. destruct (put_total queue e) as (queue' & -> & Hperm). simpl.
  rewrite IH, Hperm by done. simpl. by rewrite Permutation_middle.
Qed.

Lemma arrivals_nil w a : arrivals w a a = [].
Proof. unfold arrivals. by rewrite Nat.sub_diag. Qed.

Lemma arrivals_app w a b c :
  a ≤ b → b ≤ c → arrivals w a c = arrivals w a b ++ arrivals w b c.
Proof.
  intros Hab Hbc. unfold arrivals, puts_of.
  replace (c - a) with ((b - a) + (c - b)) by lia.
  rewrite seq_app, fmap_app, concat_app, omap_app.
  by replace (a + (b - a)) with b by lia.
Qed.

Lemma arrivals_one w a :
  arrivals w a (S a) = puts_of (other_thread w a).
Proof.
  unfold arrivals. replace (S a - a) with 1 by lia. simpl.
  by rewrite app_nil_r.
Qed.

Lemma perm_chain {A} (Q0 A01 F0 Q1 A12 F1 Q2 : list A) :
  Q0 ++ A01 ≡ₚ F0 ++ Q1 →
  Q1 ++ A12 ≡ₚ F1 ++ Q2 →
  Q0 ++ A01 ++ A12 ≡ₚ (F0 ++ F1) ++ Q2.
Proof.
  intros H1 H2.
  rewrite (assoc_L (++) Q0), H1, <- (assoc_L (++) F0), H2.
  by rewrite !(assoc_L (++)).
Qed.

(** The ledger of the consumer loop when the other thread only inserts:
    [finalized] are the events for which the loop issued the UPDATE. *)
Lemma convert_ledger n : ∀ w s,
  (∀ k, Forall (λ op, op ≠ Get) (other_thread w k)) →
  ∃ new finalized,
    trace (convert n w s).2 = trace s ++ new ∧
    n_queue s ≤ n_queue (convert n w s).2 ∧
    updates new = conversion_of <$> finalized ∧
    taken new ≡ₚ enqueued new ++ finalized ∧
    queue s ++ arrivals w (n_queue s) (n_queue (convert n w s).2)
    ≡ₚ finalized ++ queue (convert n w s).2.
Proof.
  induction n as [|n IH]; intros w s Hputs.
  { exists [], []. simpl. rewrite arrivals_nil, !app_nil_r. done. }
  cbn [convert]. rewrite run_bind.
  destruct (convert_iteration_cases w s)
    as [[_ ->]|(e & q1 & s1 & _ & Hperm & -> & Hcases)].
  { exists [], []. simpl. rewrite arrivals_nil, !app_nil_r. done. }
  unfold queue_now in Hperm. rewrite apply_ops_only_puts in Hperm by done.
  cbv zeta in Hcases.
  destruct (IH w s1 Hputs) as (new1 & fin1 & Ht1 & Hle1 & Hup1 & Htk1 & Hperm1).
  destruct Hcases as [(_ & _ & Hq1 & Ht & Hn)|(_ & Hq1 & Ht & Hn)].
  - rewrite apply_ops_only_puts in Hq1 by done.
    eexists (_ ++ new1), ([] ++ fin1).
    split; [by rewrite Ht1, Ht, <- app_assoc|]. split; [lia|].
    split; [done|]. split; [simpl; by rewrite Htk1|].
    rewrite (arrivals_app w (n_queue s) (n_queue s1)) by lia.
    eapply perm_chain; [|exact Hperm1].
    rewrite Hn, (arrivals_app w (n_queue s) (S (n_queue s))) by lia.
    rewrite !arrivals_one. simpl. rewrite Hq1.
    by rewrite (assoc_L (++) (queue s)), Hperm.
  - eexists (_ ++ new1), ([e] ++ fin1).
    split; [by rewrite Ht1, Ht, <- app_assoc|]. split; [lia|].
    split; [simpl; by rewrite Hup1|]. split.
    { simpl. rewrite Htk1. by rewrite Permutation_middle. }
    rewrite (arrivals_app w (n_queue s) (n_queue s1)) by lia.
    eapply perm_chain; [|exact Hperm1].
    rewrite Hn, arrivals_one. simpl. by rewrite Hq1.
Qed.

(** X15. When the other thread only inserts, the consumer loop neither
    loses nor duplicates an event.  There is a list of finalized events
    whose UPDATEs, in that order, are the UPDATEs issued; every event taken
    is either put back or finalized; and the events in the queue at the
    start together with those that arrived from the other thread are, up to
    the order, the finalized events together with those in the queue at the
    end. *)
Theorem convert_conserves_events n w s :
  (∀ k, Forall (λ op, op ≠ Get) (other_thread w k)) →
  let s' := (convert n w s).2 in
  ∃ new finalized,
    trace s' = trace s ++ new ∧
    updates new = conversion_of <$> finalized ∧
    taken new ≡ₚ enqueued new ++ finalized ∧
    queue s ++ arrivals w (n_queue s) (n_queue s') ≡ₚ finalized ++ queue s'.
Proof.
  intros Hputs s'.
  destruct (convert_ledger n w s Hputs)
    as (new & finalized & Ht & _ & Hup & Htk & Hperm).
  by exists new, finalized.
Qed.

(** The identifier of the lead of an event, as the UPDATE names it. *)
Lemma updates_lead_ids (finalized : list ConversionEvent) :
  (λ update : Z * option Z, update.2) <$> (conversion_of <$> finalized)
  = lead_id_of <$> finalized.
Proof. by rewrite <- list_fmap_compose. Qed.

(** X16. When the other thread only inserts and the events in the queue
    and those that arrive belong to pairwise different leads, the UPDATEs
    that the consumer loop issues name pairwise different leads: no lead is
    converted twice. *)
Theorem no_lead_converted_twice n w s :
  (∀ k, Forall (λ op, op ≠ Get) (other_thread w k)) →
  let s' := (convert n w s).2 in
  NoDup (lead_id_of <$> (queue s ++ arrivals w (n_queue s) (n_queue s'))) →
  ∃ new,
    trace s' = trace s ++ new ∧
    NoDup ((λ update, update.2) <$> updates new).
Proof.
  intros Hputs s' Hnodup.
  destruct (convert_ledger n w s Hputs)
    as (new & finalized & Ht & _ & Hup & _ & Hperm).
  exists new. split; [done|].
  rewrite Hup, updates_lead_ids.
  fold s' in Hperm. rewrite Hperm, fmap_app in Hnodup.
  by apply NoDup_app in Hnodup as [? _].
Qed.

(** What one call of [create_lead] puts on the queue, by identifier. *)
Lemma create_lead_put_ids w s :
  ∃ new,
    trace (create_lead w s).2 = trace s ++ new ∧
    sublist (lead_id_of <$> enqueued new) [db_fetchone w (n_fetchone s)] ∧
    Forall has_id (enqueued new) ∧
    ((create_lead w s).1 = Returned tt →
     n_fetchone (create_lead w s).2 = S (n_fetchone s)).
Proof.
  destruct (db_fetchone w (n_fetchone s)) as [i|] eqn:Hrow.
  - destruct (create_lead_row w s i Hrow)
      as (s' & calls & -> & Ht & Hcalls & Hf & _).
    exists calls. split; [done|].
    destruct Hcalls
      as (lead & record & coupon & enqueue & -> & Hid & _ & _ & _ & _
          & Hcoupon & Henq).
    assert (enqueued coupon = []) as Hc.
    { destruct (bool_decide _);
        [destruct Hcoupon as (? & _ & ->)|subst coupon]; done. }
    unfold enqueued in *. simpl. rewrite omap_app, Hc. simpl.
    destruct Henq as [->|(now & event & -> & Hlead & _)]; simpl.
    + split; [apply sublist_nil_l|]. split; [constructor|done].
    + unfold has_id, lead_id_of. rewrite Hlead, Hid.
      split; [done|]. split; [|done]. constructor; [simpl; rewrite Hlead, Hid; by eexists|constructor].
  - destruct (create_lead_no_row w s Hrow) as (lead & s' & -> & _ & Ht & _).
    eexists. split; [exact Ht|]. split; [apply sublist_nil_l|].
    split; [constructor|done].
Qed.

(** The events that the producer loop puts on the queue, by identifier. *)
Lemma run_simulation_put_ids n : ∀ w s,
  ∃ new,
    trace (run_simulation n w s).2 = trace s ++ new ∧
    sublist (lead_id_of <$> enqueued new)
            (db_fetchone w <$> seq (n_fetchone s) n) ∧
    Forall has_id (enqueued new).
Proof.
  induction n as [|n IH]; intros w s.
  { exists []. rewrite app_nil_r. split; [done|]. split; constructor. }
  destruct (create_lead_put_ids w s) as (new1 & Ht1 & Hsub1 & Hid1 & Hf1).
  cbn [run_simulation seq fmap list_fmap]. rewrite run_bind.
  destruct (create_lead w s) as [[[]|exn|] s1]; simpl in Ht1, Hf1.
  - rewrite run_bind. unfold time_sleep. rewrite log_run.
    destruct (IH w (add_trace (TimeSleep 0.01) s1))
      as (new2 & Ht2 & Hsub2 & Hid2).
    simpl in Hsub2. rewrite Hf1 in Hsub2 by done.
    exists (new1 ++ TimeSleep 0.01 :: new2). split.
    { rewrite Ht2. simpl. rewrite Ht1, <- !app_assoc. done. }
    unfold enqueued in *. rewrite omap_app, fmap_app. simpl. split.
    + by apply (sublist_app _ [_]).
    + by apply Forall_app.
  - exists new1. split; [done|]. split; [|done].
    rewrite <- (app_nil_r (_ <$> _)).
    by apply (sublist_app _ [_]), sublist_nil_l.
  - exists new1. split; [done|]. split; [|done].
    rewrite <- (app_nil_r (_ <$> _)).
    by apply (sublist_app _ [_]), sublist_nil_l.
Qed.

(** X17. The lead identifiers of the events that the producer loop puts
    on the queue are, in the order of the puts, some of the identifiers that
    the INSERTs of its turns returned, in the order of the turns: at most
    one event per turn, hence at most [n] in [n] turns, each with the
    identifier of its turn; if the database returns pairwise different
    identifiers, the events belong to pairwise different leads. *)
Theorem enqueued_ids_follow_rows n w s :
  ∃ new,
    trace (run_simulation n w s).2 = trace s ++ new ∧
    sublist (lead_id_of <$> enqueued new)
            (db_fetchone w <$> seq (n_fetchone s) n) ∧
    length (enqueued new) ≤ n ∧
    (NoDup (db_fetchone w <$> seq (n_fetchone s) n) →
     NoDup (lead_id_of <$> enqueued new)).
Proof.
  destruct (run_simulation_put_ids n w s) as (new & Ht & Hsub & _).
  exists new. split; [done|]. split; [done|]. split.
  - apply sublist_length in Hsub.
    by rewrite !length_fmap, length_seq in Hsub.
  - intros Hnodup. by eapply sublist_NoDup.
Qed.

(** X18. Producer and consumer together, both started on the empty
    queue: if every operation of the other thread that the consumer sees is
    the put of an event that the producer loop has put, then every UPDATE of
    the consumer names a lead identifier. *)
Theorem pipeline_updates_have_ids n m wp wc :
  (∀ k, Forall
          (λ op, ∃ e, op = Put e ∧
                      e ∈ enqueued (trace (run_simulation n wp initial_state).2))
          (other_thread wc k)) →
  Forall (λ update, is_Some update.2)
         (updates (trace (convert m wc initial_state).2)).
Proof.
  intros Hother.
  destruct (run_simulation_put_ids n wp initial_state) as (new & Ht & _ & Hid).
  rewrite Ht in Hother. simpl in Hother. rewrite Forall_forall in Hid.
  destruct (convert_taken_Forall has_id m wc initial_state)
    as (new' & -> & Htk & Hsub).
  - constructor.
  - intros k. eapply Forall_impl; [exact (Hother k)|].
    intros op (e & -> & He). by apply Hid.
  - simpl. by apply updates_of_taken_have_ids.
Qed.

(** ** The heap operations in range, the buckets, and the head of the queue *)

(** X19. [heappush] and [heappop] never index out of range, whatever the
    list (a heap or not) and whatever the comparison: [heappush] returns the
    items of the list and the new item; [heappop] of a non-empty list
    returns its first item and the other items; [heappop] of the empty list
    raises [IndexError]. *)
Theorem heap_operations_in_bounds {A} (ltb : A → A → bool) (heap : list A) :
  (∀ item, ∃ heap', heappush ltb heap item = Some heap' ∧
                    heap' ≡ₚ item :: heap) ∧
  match heap with
  | [] => heappop ltb heap = None
  | first :: _ =>
      ∃ heap', heappop ltb heap = Some (first, heap') ∧
               heap ≡ₚ first :: heap'
  end.
Proof.
  split; [intros item; apply heappush_total|].
  destruct heap as [|first rest]; [done|].
  destruct (heappop_total ltb (first :: rest)) as (x & heap' & Hpop & Hx & Hp);
    [done|].
  simpl in Hx. simplify_eq. by exists heap'.
Qed.

Lemma experiment_bucket_control i :
  experiment_bucket i = "control" ↔ (i mod 10 = 0 ∨ i mod 10 = 1)%Z.
Proof.
  unfold experiment_bucket. destruct (Z.leb_spec (i mod 10) 1).
  - split; [lia|done].
  - split; [done|lia].
Qed.

(** X20. Among any ten consecutive lead identifiers exactly two are in
    the control bucket: the control group is 20% of the leads. *)
Theorem control_is_two_in_ten (first : Z) :
  length (filter (λ i, experiment_bucket i = "control") (seqZ first 10)) = 2.
Proof.
  change (seqZ first 10)
    with [0 + first; 1 + first; 2 + first; 3 + first; 4 + first; 5 + first;
          6 + first; 7 + first; 8 + first; 9 + first]%Z.
  assert (first mod 10 = 0 ∨ first mod 10 = 1 ∨ first mod 10 = 2 ∨
          first mod 10 = 3 ∨ first mod 10 = 4 ∨ first mod 10 = 5 ∨
          first mod 10 = 6 ∨ first mod 10 = 7 ∨ first mod 10 = 8 ∨
          first mod 10 = 9)%Z as Hr by lia.
  repeat destruct Hr as [Hr|Hr].
  all: repeat first
         [ rewrite filter_cons_True by (apply experiment_bucket_control; lia)
         | rewrite filter_cons_False
             by (rewrite experiment_bucket_control; lia) ].
  all: reflexivity.
Qed.


(** X22. A coupon never costs a conversion: if, for the same lead, score
    and answers of the generator and the clock, the conversion step puts an
    event without a coupon having been sent, then with a coupon sent it does
    exactly the same (the second flip is not drawn). *)
Theorem coupon_never_loses_conversion lead score w s :
  trace (create_lead_convert lead score false w s).2 ≠ trace s →
  create_lead_convert lead score true w s
  = create_lead_convert lead score false w s.
Proof.
  intros Hconv. unfold create_lead_convert in *.
  rewrite !run_bind, random_random_run in *. cbv zeta in *.
  destruct (Qltb (random_value _) score); [done|].
  by simpl in Hconv.
Qed.

(** ** Worked examples *)

(** Events inserted at +1 s, +0.02 s and +5 s leave the queue in the order
    +0.02 s, +1 s, +5 s. *)
Example drain_by_fire_time :
  PriorityQueue.drain
    (apply_ops [] [Put (sample_event 1 1); Put (sample_event 0.02 2);
                   Put (sample_event 5 3)])
  = [sample_event 0.02 2; sample_event 1 1; sample_event 5 3].
Proof. vm_compute. reflexivity. Qed.

(** An event that is already due is finalized in the turn that takes it,
    without being put back; the loop then waits on the empty queue. *)
Example due_event_finalized_at_once :
  convert 2 (scripted_world [] [] [100%Q; 100.1%Q] []) state_due
  = (Blocked,
     {| queue := [];
        trace := [QueueGet (sample_event 99 1); TimeTime 100; TimeTime 100.1;
                  SqlUpdateConversion 1001 (Some 1%Z)];
        n_fetchone := 0; n_random := 0; n_clock := 2; n_queue := 1 |}).
Proof. vm_compute. reflexivity. Qed.

(** A lead with score 0.5 in the experiment bucket gets a coupon, fails the
    first flip, passes the second and is scheduled 15 s after the clock
    reading of 60 s. *)
Example create_lead_with_coupon :
  ∃ event,
    create_lead world_coupon initial_state
    = (Returned tt,
       {| queue := [event];
          trace :=
            [SqlInsertLead "aaaa@aaa.com" "email" "klaviyo.com";
             KafkaSend "conversion_predictions"
               (Prediction.mk (Some 12%Z) "experiment" (random_value (2 ^ 52))
                              0 50);
             SqlInsertCoupon (Some 12%Z) 1500;
             TimeTime 60;
             QueuePut event];
          n_fetchone := 1; n_random := 17; n_clock := 2; n_queue := 1 |}) ∧
    (ConversionEvent.converted_at event == 75)%Q ∧
    ConversionEvent.lead event = sample_lead 12 ∧
    ConversionEvent.conversion_amount event = 1005%Z.
Proof.
  exists (ConversionEvent.mk
            (float_add 60 (float_mul (random_value (2 ^ 52)) 30))
            (sample_lead 12) 1005).
  split; [vm_compute; reflexivity|]. split; [|done]. vm_compute. reflexivity.
Qed.

(** C4 as stated fails: with no row for the first lead and rows ready for
    the next two, three turns of the producer loop end in the
    [RuntimeError] of the first; the only call made is the first INSERT, no
    second iteration runs. *)
Lemma missing_row_stops_loop :
  run_simulation 3 world_missing_row initial_state
  = (Raised (RuntimeError (Lead.mk "aaaa@aaa.com" "email" "klaviyo.com" None)),
     {| queue := [];
        trace := [SqlInsertLead "aaaa@aaa.com" "email" "klaviyo.com"];
        n_fetchone := 1; n_random := 11; n_clock := 0; n_queue := 0 |}) ∧
  ¬ ∃ s', run_simulation 3 world_missing_row initial_state = (Returned tt, s').
Proof.
  assert (run_simulation 3 world_missing_row initial_state
          = (Raised (RuntimeError
                       (Lead.mk "aaaa@aaa.com" "email" "klaviyo.com" None)),
             {| queue := [];
                trace := [SqlInsertLead "aaaa@aaa.com" "email" "klaviyo.com"];
                n_fetchone := 1; n_random := 11; n_clock := 0;
                n_queue := 0 |})) as H by (vm_compute; reflexivity).
  split; [exact H|]. intros [s' Hs']. rewrite H in Hs'. discriminate.
Qed.

(** The same world, through the general statement. *)
Lemma missing_row_ends_producer_witness :
  db_fetchone world_missing_row (n_fetchone initial_state) = None ∧
  ∃ lead s',
    run_simulation 3 world_missing_row initial_state
    = (Raised (RuntimeError lead), s').
Proof.
  split; [reflexivity|].
  destruct (missing_row_ends_producer world_missing_row initial_state 2)
    as (lead & s' & _ & _ & _ & _ & Hrun); [reflexivity|].
  by exists lead, s'.
Defined.

(** C5 as stated fails for events with equal timestamps.  The consumer
    holds an event due at 5 s, more than [PERIOD] ahead of the clock, while
    the producer inserts events due at 1 s, 2 s and 2 s (leads 1, 2 and 3),
    all strictly earlier than it.  Without the event put back these three
    would leave the queue in the order of leads 1, 2, 3; after the put they
    leave it in the order 1, 3, 2: the two events due at 2 s have changed
    places. *)
Lemma requeue_reorders_ties :
  ∃ s1 s',
    queue_get world_ties initial_state = (Returned (sample_event 5 0), s1) ∧
    (PERIOD < ConversionEvent.converted_at (sample_event 5 0)
              - wall_clock world_ties (n_clock s1))%Q ∧
    convert_iteration world_ties initial_state = (Returned tt, s') ∧
    trace s' = [QueueGet (sample_event 5 0); TimeTime 0;
                QueuePut (sample_event 5 0); TimeSleep PERIOD] ∧
    Forall (earlier_than (sample_event 5 0)) (queue_now world_ties s1) ∧
    PriorityQueue.drain (queue_now world_ties s1)
    = [sample_event 1 1; sample_event 2 2; sample_event 2 3] ∧
    PriorityQueue.drain (queue s')
    = [sample_event 1 1; sample_event 2 3; sample_event 2 2;
       sample_event 5 0] ∧
    occurs_before (PriorityQueue.drain (queue_now world_ties s1))
                  (sample_event 2 2) (sample_event 2 3) ∧
    occurs_before (PriorityQueue.drain (queue s'))
                  (sample_event 2 3) (sample_event 2 2).
Proof.
  eexists _, _. split; [vm_compute; reflexivity|].
  split; [vm_compute; reflexivity|].
  split; [vm_compute; reflexivity|].
  split; [vm_compute; reflexivity|].
  split; [repeat constructor|].
  split; [vm_compute; reflexivity|].
  split; [vm_compute; reflexivity|].
  split.
  - exists [sample_event 1 1], [], []. vm_compute. reflexivity.
  - exists [sample_event 1 1], [], [sample_event 5 0]. vm_compute. reflexivity.
Qed.

(** C8 as stated fails at the upper end of the range.  The clock reads
    1 700 000 000 s and [random.random()] returns its largest value,
    [1 - 2^-53], which is below 1; the product with 30 rounds to
    [30 - 2^-48], and the sum with the clock reading rounds to
    1 700 000 030 s: the fire time is [now + 30], not before it. *)
Lemma fire_time_reaches_thirty :
  ∃ event s',
    create_lead_convert (sample_lead 12) 0.5 false world_last_value
                        initial_state = (Returned tt, s') ∧
    trace s' = [TimeTime 1700000000; QueuePut event] ∧
    (random_value (random_bits world_last_value 1) == 1 - (1 # 2 ^ 53))%Q ∧
    (float_mul (random_value (random_bits world_last_value 1)) 30
     == 30 - (1 # 2 ^ 48))%Q ∧
    (round64 1700000000 == 1700000000)%Q ∧
    (ConversionEvent.converted_at event == 1700000000 + 30)%Q ∧
    ¬ (ConversionEvent.converted_at event < 1700000000 + 30)%Q.
Proof.
  eexists _, _. split; [vm_compute; reflexivity|].
  split; [vm_compute; reflexivity|].
  split; [vm_compute; reflexivity|].
  split; [vm_compute; reflexivity|].
  split; [vm_compute; reflexivity|].
  split; [vm_compute; reflexivity|].
  vm_compute. discriminate.
Qed.

(** The scenario of the specification: events at +1 s, +0.02 s and +5 s are
    inserted in that order; the first one handed out is the one at
    +0.02 s. *)
Lemma get_returns_earliest_witness :
  PriorityQueue._get
    (apply_ops [] [Put (sample_event 1 1); Put (sample_event 0.02 2);
                   Put (sample_event 5 3)])
  = Some (sample_event 0.02 2, [sample_event 1 1; sample_event 5 3]) ∧
  Forall (λ x, (ConversionEvent.converted_at (sample_event 0.02 2)
                <= ConversionEvent.converted_at x)%Q)
         [sample_event 1 1; sample_event 5 3].
Proof.
  assert (PriorityQueue._get
            (apply_ops [] [Put (sample_event 1 1); Put (sample_event 0.02 2);
                           Put (sample_event 5 3)])
          = Some (sample_event 0.02 2, [sample_event 1 1; sample_event 5 3]))
    as H by (vm_compute; reflexivity).
  split; [exact H|]. exact (get_returns_earliest _ _ _ H).
Defined.

(** A turn that puts its event back: taken at 10 s, the event is due at
    100 s. *)
Lemma convert_iteration_spec_witness :
  queue_get world_requeue initial_state
  = (Returned (sample_event 100 0), state_after_get) ∧
  ∃ s', convert_iteration world_requeue initial_state = (Returned tt, s') ∧
        trace s' = [QueueGet (sample_event 100 0); TimeTime 10;
                    QueuePut (sample_event 100 0); TimeSleep PERIOD].
Proof.
  assert (queue_get world_requeue initial_state
          = (Returned (sample_event 100 0), state_after_get)) as H
    by (vm_compute; reflexivity).
  split; [exact H|].
  destruct (convert_iteration_spec world_requeue initial_state _ _ H)
    as (s' & Hrun & Hreq & _).
  exists s'. split; [exact Hrun|]. apply Hreq. vm_compute. reflexivity.
Defined.

(** The same turn: the queue afterwards holds the event put back and the
    three events that the producer inserted in the meantime. *)
Lemma requeue_preserves_witness :
  is_heap (queue initial_state) ∧
  queue_get world_requeue initial_state
  = (Returned (sample_event 100 0), state_after_get) ∧
  (PERIOD < ConversionEvent.converted_at (sample_event 100 0) - 10)%Q ∧
  ∃ s', convert_iteration world_requeue initial_state = (Returned tt, s') ∧
        queue s' ≡ₚ [sample_event 100 0; sample_event 20 1;
                     sample_event 30 2; sample_event 20 3].
Proof.
  assert (queue_get world_requeue initial_state
          = (Returned (sample_event 100 0), state_after_get)) as H
    by (vm_compute; reflexivity).
  assert (PERIOD < ConversionEvent.converted_at (sample_event 100 0) - 10)%Q
    as Hslack by (vm_compute; reflexivity).
  split; [exact is_heap_nil|]. split; [exact H|]. split; [exact Hslack|].
  destruct (requeue_preserves world_requeue initial_state _ _ is_heap_nil H
              Hslack) as (s' & Hrun & _ & Hperm & _).
  exists s'. split; [exact Hrun|]. exact Hperm.
Defined.

(** ** Worked instances of the further properties *)

(** The lead of [world_coupon], which gets the identifier 12. *)
Lemma create_lead_call_order_witness :
  db_fetchone world_coupon (n_fetchone initial_state) = Some 12%Z ∧
  ∃ s' calls,
    create_lead world_coupon initial_state = (Returned tt, s') ∧
    trace s' = trace initial_state ++ calls ∧
    lead_calls 12 calls.
Proof.
  split; [reflexivity|].
  apply (create_lead_call_order world_coupon initial_state 12). reflexivity.
Defined.

(** One turn of the producer loop in [world_coupon]. *)
Lemma run_simulation_all_rows_witness :
  (∀ j, j < 1 →
        is_Some (db_fetchone world_coupon (n_fetchone initial_state + j))) ∧
  ∃ s' turns,
    run_simulation 1 world_coupon initial_state = (Returned tt, s') ∧
    trace s' = trace initial_state ++ concat turns ∧
    n_fetchone s' = n_fetchone initial_state + 1 ∧
    Forall2 (producer_turn world_coupon (n_fetchone initial_state))
            (seq 0 1) turns.
Proof.
  assert (∀ j, j < 1 →
            is_Some (db_fetchone world_coupon (n_fetchone initial_state + j)))
    as Hrows.
  { intros j Hj. destruct j; [|lia]. eexists. reflexivity. }
  split; [exact Hrows|].
  exact (run_simulation_all_rows 1 world_coupon initial_state Hrows).
Defined.

(** Three turns asked for, a row for the first lead only: the loop ends in
    the second turn. *)
Lemma run_simulation_first_missing_row_witness :
  1 < 3 ∧
  (∀ j, j < 1 →
        is_Some (db_fetchone world_second_row_missing
                             (n_fetchone initial_state + j))) ∧
  db_fetchone world_second_row_missing (n_fetchone initial_state + 1) = None ∧
  ∃ lead s',
    run_simulation 3 world_second_row_missing initial_state
    = (Raised (RuntimeError lead), s') ∧
    n_fetchone s' = 2.
Proof.
  assert (∀ j, j < 1 →
            is_Some (db_fetchone world_second_row_missing
                                 (n_fetchone initial_state + j))) as Hrows.
  { intros j Hj. destruct j; [|lia]. eexists. reflexivity. }
  split; [lia|]. split; [exact Hrows|]. split; [reflexivity|].
  destruct (run_simulation_first_missing_row 3 1 world_second_row_missing
              initial_state) as (lead & s' & turns & Hrun & _ & _ & Hf & _);
    [lia|exact Hrows|reflexivity|].
  exists lead, s'. split; [exact Hrun|exact Hf].
Defined.

(** Both loops, started on the empty queue of [world_requeue]. *)
Lemma loops_keep_heap_witness :
  is_heap (queue initial_state) ∧
  is_heap (queue (run_simulation 2 world_requeue initial_state).2) ∧
  is_heap (queue (convert 2 world_requeue initial_state).2).
Proof.
  split; [exact is_heap_nil|].
  exact (loops_keep_heap 2 world_requeue initial_state is_heap_nil).
Defined.

(** Five turns on the backlog with the clock at 98 s: the events due at
    97 s and 98 s are finalized, the one due at 99 s is put back. *)
Lemma convert_takes_in_time_order_witness :
  (∀ k, other_thread (world_quiet 98) k = []) ∧
  is_heap (queue state_backlog) ∧
  ∃ new,
    trace (convert 5 (world_quiet 98) state_backlog).2
    = trace state_backlog ++ new ∧
    StronglySorted fires_first (taken new).
Proof.
  assert (is_heap (queue state_backlog)) as Hq
    by exact (apply_ops_is_heap _ _ is_heap_nil).
  split; [reflexivity|]. split; [exact Hq|].
  destruct (convert_takes_in_time_order 5 (world_quiet 98) state_backlog)
    as (new & Ht & Hs & _); [reflexivity|exact Hq|].
  exists new. split; [exact Ht|exact Hs].
Defined.

(** The backlog with the clock at 100 s: the three events are finalized in
    the order 97 s, 98 s, 99 s. *)
Lemma convert_flushes_due_backlog_witness :
  (∀ k, other_thread (world_quiet 100) k = []) ∧
  (∀ e k, e ∈ queue state_backlog →
     (ConversionEvent.converted_at e
      <= wall_clock (world_quiet 100) k + PERIOD)%Q) ∧
  ∃ s' new,
    convert 3 (world_quiet 100) state_backlog = (Returned tt, s') ∧
    trace s' = trace state_backlog ++ new ∧
    updates new = [(1002, Some 2); (1003, Some 3); (1001, Some 1)]%Z.
Proof.
  assert (∀ e k, e ∈ queue state_backlog →
            (ConversionEvent.converted_at e
             <= wall_clock (world_quiet 100) k + PERIOD)%Q) as Hdue.
  { intros e k He. vm_compute in He.
    repeat (apply elem_of_cons in He as [->|He]; [vm_compute; discriminate|]).
    by apply elem_of_nil in He. }
  split; [reflexivity|]. split; [exact Hdue|].
  destruct (convert_flushes_due_backlog (world_quiet 100) state_backlog)
    as (s' & new & Hrun & Ht & _ & _ & Hup & _); [reflexivity|exact Hdue|].
  exists s', new. split; [exact Hrun|]. split; [exact Ht|].
  rewrite Hup. vm_compute. reflexivity.
Defined.

(** The consumer of [world_two_due]: both events that the producer inserts
    carry a lead with an identifier, both are finalized, and the two UPDATEs
    name the identifiers 1 and 2. *)
Lemma convert_updates_have_ids_witness :
  Forall has_id (queue initial_state) ∧
  (∀ k, Forall (λ op, match op with Put e => has_id e | Get => True end)
               (other_thread world_two_due k)) ∧
  ∃ new,
    trace (convert 2 world_two_due initial_state).2
    = trace initial_state ++ new ∧
    updates new = [(1001%Z, Some 1%Z); (1002%Z, Some 2%Z)] ∧
    Forall (λ update, is_Some update.2) (updates new).
Proof.
  assert (∀ k, Forall (λ op, match op with Put e => has_id e | Get => True end)
                      (other_thread world_two_due k)) as Hother.
  { intros [|k]; simpl; repeat constructor; by eexists. }
  split; [constructor|]. split; [exact Hother|].
  destruct (convert_updates_have_ids 2 world_two_due initial_state)
    as (new & Ht & Hall); [constructor|exact Hother|].
  exists new. split; [exact Ht|]. split; [|exact Hall].
  change (trace initial_state ++ new) with new in Ht. rewrite <- Ht.
  vm_compute. reflexivity.
Defined.

(** An event due at 10 s put on a queue that holds events due at 20 s and
    30 s is the next one taken. *)
Lemma put_then_get_witness :
  is_heap (apply_ops [] [Put (sample_event 20 1); Put (sample_event 30 2)]) ∧
  ∃ queue1 x queue2,
    PriorityQueue._put
      (apply_ops [] [Put (sample_event 20 1); Put (sample_event 30 2)])
      (sample_event 10 3) = Some queue1 ∧
    PriorityQueue._get queue1 = Some (x, queue2) ∧
    fires_first x (sample_event 10 3).
Proof.
  assert (is_heap (apply_ops [] [Put (sample_event 20 1);
                                 Put (sample_event 30 2)])) as Hq
    by exact (apply_ops_is_heap _ _ is_heap_nil).
  split; [exact Hq|].
  destruct (put_then_get _ (sample_event 10 3) Hq)
    as (queue1 & x & queue2 & Hput & Hget & Hx & _).
  exists queue1, x, queue2. split; [exact Hput|]. split; [exact Hget|exact Hx].
Defined.

(** The consumer of [world_two_due]: both events are finalized. *)
Lemma convert_conserves_events_witness :
  (∀ k, Forall (λ op, op ≠ Get) (other_thread world_two_due k)) ∧
  ∃ new finalized,
    trace (convert 2 world_two_due initial_state).2
    = trace initial_state ++ new ∧
    updates new = conversion_of <$> finalized ∧
    taken new ≡ₚ enqueued new ++ finalized.
Proof.
  assert (∀ k, Forall (λ op, op ≠ Get) (other_thread world_two_due k))
    as Hputs.
  { intros [|k]; simpl; repeat constructor; discriminate. }
  split; [exact Hputs|].
  destruct (convert_conserves_events 2 world_two_due initial_state Hputs)
    as (new & finalized & Ht & Hup & Htk & _).
  exists new, finalized. split; [exact Ht|]. split; [exact Hup|exact Htk].
Defined.

(** The same consumer: the two events belong to the leads 1 and 2, and the
    two UPDATEs name two leads. *)
Lemma no_lead_converted_twice_witness :
  (∀ k, Forall (λ op, op ≠ Get) (other_thread world_two_due k)) ∧
  NoDup (lead_id_of <$>
         (queue initial_state ++
          arrivals world_two_due (n_queue initial_state)
            (n_queue (convert 2 world_two_due initial_state).2))) ∧
  ∃ new,
    trace (convert 2 world_two_due initial_state).2
    = trace initial_state ++ new ∧
    NoDup ((λ update, update.2) <$> updates new).
Proof.
  assert (∀ k, Forall (λ op, op ≠ Get) (other_thread world_two_due k))
    as Hputs.
  { intros [|k]; simpl; repeat constructor; discriminate. }
  assert (NoDup (lead_id_of <$>
                 (queue initial_state ++
                  arrivals world_two_due (n_queue initial_state)
                    (n_queue (convert 2 world_two_due initial_state).2))))
    as Hnodup.
  { apply (bool_decide_unpack _). vm_compute. reflexivity. }
  split; [exact Hputs|]. split; [exact Hnodup|].
  exact (no_lead_converted_twice 2 world_two_due initial_state Hputs Hnodup).
Defined.

(** The producer of [world_coupon] and the consumer next to it. *)
Lemma pipeline_updates_have_ids_witness :
  (∀ k, Forall
          (λ op, ∃ e, op = Put e ∧
                      e ∈ enqueued
                            (trace (run_simulation 1 world_coupon
                                      initial_state).2))
          (other_thread world_consumer k)) ∧
  Forall (λ update, is_Some update.2)
         (updates (trace (convert 2 world_consumer initial_state).2)).
Proof.
  assert (∀ k, Forall
                 (λ op, ∃ e, op = Put e ∧
                             e ∈ enqueued
                                   (trace (run_simulation 1 world_coupon
                                             initial_state).2))
                 (other_thread world_consumer k)) as Hother.
  { intros [|k]; simpl; [|constructor].
    constructor; [|constructor]. exists event_coupon. split; [reflexivity|].
    vm_compute. left. }
  split; [exact Hother|].
  exact (pipeline_updates_have_ids 1 2 world_coupon world_consumer Hother).
Defined.


(** A lead with the score 0.5 whose first flip is 0: it converts without a
    coupon, and in the same way with one. *)
Lemma coupon_never_loses_conversion_witness :
  trace (create_lead_convert (sample_lead 12) 0.5 false (world_quiet 60)
           initial_state).2 ≠ trace initial_state ∧
  create_lead_convert (sample_lead 12) 0.5 true (world_quiet 60) initial_state
  = create_lead_convert (sample_lead 12) 0.5 false (world_quiet 60)
      initial_state.
Proof.
  assert (trace (create_lead_convert (sample_lead 12) 0.5 false
                   (world_quiet 60) initial_state).2 ≠ trace initial_state)
    as Hconv by (vm_compute; discriminate).
  split; [exact Hconv|].
  exact (coupon_never_loses_conversion _ _ _ _ Hconv).
Defined.
